(** * Q-Transfer backend: the chaotic-map encryption engine

    A shallow embedding of [app/quantum_engine.py] (seed derivation, the
    chaotic keystream generator, fingerprint, keyed checksum, encrypt and
    decrypt) together with the two guards of [app/main.py] that stand in
    front of the engine, and the properties of the engine's specification.

    Python values are modelled as follows.
    - [int] is [Z]; the masks [& 0xFFFFFFFF] and [& 0xFF] are written out.
    - [float] is IEEE-754 binary64, as [spec_float] with precision 53 and
      maximal exponent 1024, rounding to nearest even.
    - [bytes] and [bytearray] are [list byte].
    - [str] is the list of its code points.
    - An exception is the [Raise] outcome of [result]; [None] returned by
      [quantum_decrypt] is [Ok None]. *)

From Stdlib Require Import ZArith List Bool Lia String Ascii SpecFloat.
From Stdlib.Strings Require Import Byte.
Import ListNotations.
Local Open Scope Z_scope.

(** ** Outcomes *)

Inductive exn : Set :=
| ValueError      (* int(nan) *)
| OverflowError   (* int(inf) *)
| StructError     (* struct.pack / struct.unpack *)
| StopIteration   (* next() on an exhausted generator *)
| RuntimeError.   (* StopIteration escaping a generator expression *)

Inductive result (A : Type) : Type :=
| Ok (a : A)
| Raise (e : exn).
Arguments Ok {A} a.
Arguments Raise {A} e.

Definition bind {A B : Type} (r : result A) (k : A -> result B) : result B :=
  match r with
  | Ok a => k a
  | Raise e => Raise e
  end.

Declare Scope py_scope.
Delimit Scope py_scope with py.
Notation "x <- r ;; k" := (bind r (fun x => k))
  (at level 61, r at next level, right associativity) : py_scope.
Local Open Scope py_scope.

(** ** Python [str] and [bytes] *)

Definition str := list N.
Definition bytes := list byte.

Definition ord (ch : N) : Z := Z.of_N ch.

Definition py_str (s : string) : str :=
  List.map N_of_ascii (list_ascii_of_string s).

Definition py_bytes (s : string) : bytes :=
  List.map byte_of_ascii (list_ascii_of_string s).

Definition byte_val (b : byte) : Z := Z.of_N (Byte.to_N b).

Definition byte_of_Z (z : Z) : byte :=
  match Byte.of_N (Z.to_N z) with
  | Some b => b
  | None => x00
  end.

(** [b ^ k] on two byte values. *)
Definition byte_xor (b k : byte) : byte :=
  byte_of_Z (Z.lxor (byte_val b) (byte_val k)).

Definition str_eqb (a b : str) : bool :=
  if list_eq_dec N.eq_dec a b then true else false.

(** ** Python [float] *)

Module F64.

Definition prec : Z := 53.
Definition emax : Z := 1024.

Definition float := spec_float.

Definition mul : float -> float -> float := SFmul prec emax.
Definition add : float -> float -> float := SFadd prec emax.
Definition sub : float -> float -> float := SFsub prec emax.
Definition div : float -> float -> float := SFdiv prec emax.
Definition ltb : float -> float -> bool := SFltb.
Definition leb : float -> float -> bool := SFleb.

(** [float(n)] for an [int] n; exact when [|n| <= 2^53]. *)
Definition of_int (n : Z) : float := binary_normalize prec emax n 0 false.

(** [a / b] on two [int]s of magnitude at most [2^53] with [b <> 0]:
    the correctly rounded quotient. *)
Definition int_truediv (a b : Z) : float := div (of_int a) (of_int b).

(** [int(f)]: truncation toward zero; raises on nan and on infinities. *)
Definition to_int (f : float) : result Z :=
  match f with
  | S754_nan => Raise ValueError
  | S754_infinity _ => Raise OverflowError
  | S754_zero _ => Ok 0
  | S754_finite s m e =>
      let mag := if 0 <=? e then Z.shiftl (Zpos m) e
                 else Z.shiftr (Zpos m) (- e) in
      Ok (if s then - mag else mag)
  end.

(** [math.floor(f)] on a finite float, used on the specification side. *)
Definition floor (f : float) : option Z :=
  match f with
  | S754_nan | S754_infinity _ => None
  | S754_zero _ => Some 0
  | S754_finite s m e =>
      Some (if 0 <=? e then Z.shiftl (if s then Zneg m else Zpos m) e
            else Z.shiftr (if s then Zneg m else Zpos m) (- e))
  end.

(** The literals of the source, correctly rounded. *)
Definition c3_99 : float := S754_finite false 8984681256604140 (-51).
Definition c1_99 : float := S754_finite false 8962163258467287 (-52).
Definition c0_5 : float := S754_finite false 4503599627370496 (-53).
Definition c0_0001 : float := S754_finite false 7378697629483821 (-66).
Definition c0_9999 : float := S754_finite false 9006298534815518 (-53).

(** Python's [max(a, b)] and [min(a, b)] on two arguments: the first
    argument is kept unless the second is strictly better. *)
Definition py_max (a b : float) : float := if ltb a b then b else a.
Definition py_min (a b : float) : float := if ltb b a then b else a.

End F64.

Import F64.

(** ** Chaotic maps *)

Definition logistic_map (x : float) : float :=
  mul (mul c3_99 x) (sub (of_int 1) x).

Definition tent_map (x : float) : float :=
  if ltb x c0_5 then mul c1_99 x else mul c1_99 (sub (of_int 1) x).

(** ** Password -> seed *)

Definition seed_step (acc : Z) (ch : N) : Z :=
  let acc := Z.land (Z.shiftl acc 5 - acc + ord ch) 0xFFFFFFFF in
  Z.lxor acc (Z.shiftr acc 16).

Definition seed_acc (password : str) : Z := fold_left seed_step password 0.

Definition generate_entropy_seed (password : str) : float :=
  let acc := seed_acc password in
  let seed := int_truediv (Z.abs acc) 0xFFFFFFFF in
  py_max c0_0001 (py_min c0_9999 seed).

(** ** Entropy stream

    The generator object: not yet started, or suspended at the [yield]
    with the iterations the second loop has left (none left: the next
    call finds the generator exhausted). *)

Inductive generator : Type :=
| GenNew (seed : float) (length : Z)
| GenLoop (x y : float) (remaining : nat).

Definition warm_up (xy : float * float) : float * float :=
  (logistic_map (fst xy), tent_map (snd xy)).

Definition emit (x y : float) : result byte :=
  v <- to_int (mul (div (add x y) (of_int 2)) (of_int 256)) ;;
  Ok (byte_of_Z (Z.land v 0xFF)).

(** One pass of the second loop from its head. *)
Definition gen_loop (x y : float) (remaining : nat)
  : result (option (byte * generator)) :=
  match remaining with
  | O => Ok None
  | S k =>
      let x := logistic_map x in
      let y := tent_map y in
      b <- emit x y ;;
      Ok (Some (b, GenLoop x y k))
  end.

(** [next(stream)]: [Ok None] stands for StopIteration. *)
Definition gen_next (g : generator) : result (option (byte * generator)) :=
  match g with
  | GenNew seed length =>
      let '(x, y) := Nat.iter 100 warm_up (seed, tent_map seed) in
      gen_loop x y (Z.to_nat length)
  | GenLoop x y remaining => gen_loop x y remaining
  end.

Definition entropy_stream (seed : float) (length : Z) : generator :=
  GenNew seed length.

(** [next(stream)] where StopIteration escapes as the exception [stop]. *)
Definition next_or (stop : exn) (g : generator) : result (byte * generator) :=
  r <- gen_next g ;;
  match r with
  | Some bg => Ok bg
  | None => Raise stop
  end.

(** [n] successive [next(stream)] calls, collected in order. *)
Fixpoint take_next (stop : exn) (n : nat) (g : generator) : result (list byte) :=
  match n with
  | O => Ok []
  | S k =>
      bg <- next_or stop g ;;
      rest <- take_next stop k (snd bg) ;;
      Ok (fst bg :: rest)
  end.

(** [for b, k in zip(data, stream): out.append(b ^ k)]: [zip] asks [data]
    first and stops, without touching the stream, once it is exhausted. *)
Fixpoint xor_zip (data : bytes) (g : generator) : result bytes :=
  match data with
  | [] => Ok []
  | b :: rest =>
      r <- gen_next g ;;
      match r with
      | None => Ok []
      | Some (k, g') =>
          out <- xor_zip rest g' ;;
          Ok (byte_xor b k :: out)
      end
  end.

(** ** Hex formatting *)

Definition hex_digit (d : Z) : N :=
  Z.to_N (if d <? 10 then 48 + d else 87 + d).

(** [f"{b:02x}"] on a byte value. *)
Definition hex2 (b : byte) : str :=
  [hex_digit (byte_val b / 16); hex_digit (byte_val b mod 16)].

Definition hex (bs : bytes) : str := List.concat (List.map hex2 bs).

(** ** Fingerprint *)

Definition generate_entropy_fingerprint (password : str) : result str :=
  let seed := generate_entropy_seed password in
  let stream := entropy_stream seed 32 in
  ks <- take_next RuntimeError 32 stream ;;
  Ok (hex ks).

(** ** Hash *)

Fixpoint set_nth (l : list Z) (i : nat) (v : Z) : list Z :=
  match l, i with
  | [], _ => []
  | _ :: t, O => v :: t
  | h :: t, S j => h :: set_nth t j v
  end.

Definition hash_step (st : result (list Z)) (ib : nat * byte) : result (list Z) :=
  state <- st ;;
  let p := (fst ib mod 32)%nat in
  let state := set_nth state p (Z.lxor (nth p state 0) (byte_val (snd ib))) in
  let sp := nth p state 0 in
  k <- to_int (mul (logistic_map (int_truediv sp 256)) (of_int 127)) ;;
  Ok (set_nth state p (Z.land (sp + k) 0xFF)).

Definition enumerate {A : Type} (l : list A) : list (nat * A) :=
  combine (seq 0 (List.length l)) l.

Definition quantum_hash (data : bytes) (password : str) : result str :=
  let seed := generate_entropy_seed password in
  let stream := entropy_stream seed 32 in
  ks <- take_next StopIteration 32 stream ;;
  state <- fold_left hash_step (enumerate data) (Ok (List.map byte_val ks)) ;;
  Ok (hex (List.map byte_of_Z state)).

(** ** struct.pack(">I", n) and struct.unpack(">I", b)[0] *)

Definition pack_be32 (n : Z) : result bytes :=
  if (0 <=? n) && (n <=? 0xFFFFFFFF) then
    Ok [byte_of_Z (Z.shiftr n 24 mod 256); byte_of_Z (Z.shiftr n 16 mod 256);
        byte_of_Z (Z.shiftr n 8 mod 256); byte_of_Z (n mod 256)]
  else Raise StructError.

Definition unpack_be32 (b : bytes) : result Z :=
  match b with
  | [b3; b2; b1; b0] =>
      Ok (Z.shiftl (byte_val b3) 24 + Z.shiftl (byte_val b2) 16
          + Z.shiftl (byte_val b1) 8 + byte_val b0)
  | _ => Raise StructError
  end.

Definition len {A : Type} (l : list A) : Z := Z.of_nat (List.length l).

(** ** Encrypt *)

Definition quantum_encrypt (data : bytes) (password : str)
  : result (bytes * str * str) :=
  let seed := generate_entropy_seed password in
  fingerprint <- generate_entropy_fingerprint password ;;
  prefix <- pack_be32 (len data) ;;
  let stream := entropy_stream seed (len data) in
  body <- xor_zip data stream ;;
  let encrypted_bytes := prefix ++ body in
  hash_val <- quantum_hash encrypted_bytes password ;;
  Ok (encrypted_bytes, fingerprint, hash_val).

(** ** Decrypt *)

Definition quantum_decrypt (encrypted : bytes) (password : str)
    (expected_fingerprint expected_hash : str) : result (option bytes) :=
  fp <- generate_entropy_fingerprint password ;;
  if negb (str_eqb fp expected_fingerprint) then Ok None else
  h <- quantum_hash encrypted password ;;
  if negb (str_eqb h expected_hash) then Ok None else
  original_len <- unpack_be32 (firstn 4 encrypted) ;;
  let seed := generate_entropy_seed password in
  let stream := entropy_stream seed original_len in
  decrypted <- xor_zip (skipn 4 encrypted) stream ;;
  if negb (len decrypted =? original_len) then Ok None else
  Ok (Some decrypted).

(** ** The service's guards in front of the engine ([app/main.py])

    Persistence (GridFS and the metadata collection) is left out: the
    endpoints take the uploaded or stored values as arguments and answer
    with what the engine returned.  An exception escaping an endpoint is
    the framework's status 500. *)

Inductive http (A : Type) : Type :=
| Http200 (a : A)
| Http400 (detail : string)
| Http500 (e : exn).
Arguments Http200 {A} a.
Arguments Http400 {A} detail.
Arguments Http500 {A} e.

Definition encrypt_file (data : bytes) (password : str)
  : http (bytes * str * str) :=
  if (len password =? 0) || (len password <? 8) then
    Http400 "Password must be at least 8 characters"
  else if len data =? 0 then Http400 "Empty file"
  else match quantum_encrypt data password with
       | Ok r => Http200 r
       | Raise e => Http500 e
       end.

Definition decrypt_file (encrypted_data : bytes) (password : str)
    (meta_fingerprint meta_hash : str) : http bytes :=
  if (len password =? 0) || (len password <? 8) then Http400 "Invalid password"
  else if (len encrypted_data =? 0) || (len encrypted_data <? 8) then
    Http400 "Encrypted data corrupted"
  else match quantum_decrypt encrypted_data password meta_fingerprint meta_hash with
       | Ok None => Http400 "Decryption failed: wrong password or corrupted data"
       | Ok (Some decrypted) => Http200 decrypted
       | Raise e => Http500 e
       end.

(** ** Observing a generator *)

(** [n] successive [next(stream)] calls: the bytes and the generator left. *)
Fixpoint nexts (n : nat) (g : generator) : result (list byte * generator) :=
  match n with
  | O => Ok ([], g)
  | S k =>
      bg <- next_or StopIteration g ;;
      r <- nexts k (snd bg) ;;
      Ok (fst bg :: fst r, snd r)
  end.

(** Position-wise XOR of two buffers, up to the shorter one. *)
Definition xor_bytes (a b : bytes) : bytes :=
  List.map (fun p => byte_xor (fst p) (snd p)) (combine a b).

(** ** The keystream in the specification's words

    Both recurrences are applied [100] times without output; emission step
    [j] (from 0) applies both once more and emits
    [floor(((x' + y') / 2) * 256) & 0xFF]. *)

Definition spec_logistic (x : float) : float :=
  mul (mul c3_99 x) (sub (of_int 1) x).

Definition spec_tent (y : float) : float :=
  if ltb y c0_5 then mul c1_99 y else mul c1_99 (sub (of_int 1) y).

Definition spec_x (seed : float) (k : nat) : float :=
  Nat.iter k spec_logistic seed.

Definition spec_y (seed : float) (k : nat) : float :=
  Nat.iter k spec_tent (spec_tent seed).

Definition spec_byte (x y : float) : option byte :=
  option_map (fun v => byte_of_Z (Z.land v 0xFF))
             (floor (mul (div (add x y) (of_int 2)) (of_int 256))).

Definition spec_keystream (seed : float) (n : nat) : list (option byte) :=
  List.map (fun j => spec_byte (spec_x seed (100 + S j)) (spec_y seed (100 + S j)))
           (seq 0 n).

(** A seed as the data model has it: a binary64 value between the two
    clamping constants. *)
Definition valid_seed (seed : float) : Prop :=
  valid_binary prec emax seed = true /\
  leb c0_0001 seed = true /\ leb seed c0_9999 = true.

(** The characters of a lowercase hexadecimal string. *)
Definition is_lower_hex (c : N) : bool :=
  ((48 <=? c) && (c <=? 57) || (97 <=? c) && (c <=? 102))%N.

(** The values a [bytearray] holds. *)
Definition byte_range (v : Z) : Prop := 0 <= v < 256.

(** ** Hexadecimal in the specification's words

    The sixteen lowercase digits in order.  Encoding writes a value below
    16 as the digit at that position; decoding gives a digit its position
    as value and reads a string two digits per byte, the high digit first
    (what [bytes.fromhex] does on lowercase input), and fails on any other
    character and on an odd length. *)

Definition spec_hex_alphabet : str := py_str "0123456789abcdef".

Definition spec_hex_char (v : Z) : N := nth (Z.to_nat v) spec_hex_alphabet 0%N.

Fixpoint spec_index (c : N) (l : str) : option nat :=
  match l with
  | [] => None
  | d :: l' => if (c =? d)%N then Some O else option_map S (spec_index c l')
  end.

Definition spec_hex_value (c : N) : option Z :=
  option_map Z.of_nat (spec_index c spec_hex_alphabet).

Fixpoint spec_unhex (s : str) : option (list Z) :=
  match s with
  | [] => Some []
  | hi :: lo :: rest =>
      match spec_hex_value hi, spec_hex_value lo with
      | Some h, Some l => option_map (cons (16 * h + l)) (spec_unhex rest)
      | _, _ => None
      end
  | _ => None
  end.

(** ** The concrete scenario of the specification *)

Definition hello_world : bytes := py_bytes "hello world".
Definition correcthorse : str := py_str "correcthorse".
Definition wrongpassword : str := py_str "wrongpassword".

Definition hello_encrypted : result (bytes * str * str) :=
  Eval vm_compute in quantum_encrypt hello_world correcthorse.

Definition hello_blob : bytes :=
  Eval cbv in match hello_encrypted with Ok (blob, _, _) => blob | Raise _ => [] end.

Definition hello_fp : str :=
  Eval cbv in match hello_encrypted with Ok (_, fp, _) => fp | Raise _ => [] end.

Definition hello_chk : str :=
  Eval cbv in match hello_encrypted with Ok (_, _, chk) => chk | Raise _ => [] end.


(** The checksum the engine computes over a buffer that is not a blob. *)
Definition chk_of (encrypted : bytes) (password : str) : str :=
  match quantum_hash encrypted password with
  | Ok h => h
  | Raise _ => []
  end.

(** ** The hash, lane by lane

    [hash_mix] is the update [(v + int(logistic_map(v / 256) * 127)) & 0xFF]
    of one state byte (0 where [int()] would raise); [lane q s data] lists,
    in order, the bytes of [data] whose index, counted from [s], falls on
    state index [q]; [lane_fold] folds them into a state byte. *)

Definition hash_mix (v : Z) : Z :=
  match to_int (mul (logistic_map (int_truediv v 256)) (of_int 127)) with
  | Ok k => Z.land (v + k) 0xFF
  | Raise _ => 0
  end.

Definition lane (q s : nat) (data : bytes) : bytes :=
  List.map snd
    (filter (fun ib => (fst ib mod 32 =? q)%nat)
            (combine (seq s (List.length data)) data)).

Definition lane_fold (v : Z) (bs : bytes) : Z :=
  fold_left (fun v b => hash_mix (Z.lxor v (byte_val b))) bs v.

(** * Binary64 rounding: bounds that survive the rounding of each operation *)

Module Rounding.

Definition emin : Z := -1074.

(** Offset that makes the value of every intermediate result an integer. *)
Definition K : Z := 2200.

(** [m * 2^e], scaled by [2^K]. *)
Definition val (m e : Z) : Z := m * 2 ^ (e + K).

(** The value of a non-negative float, scaled by [2^K]. *)
Definition fval (x : float) : Z :=
  match x with
  | S754_finite false m e => val (Zpos m) e
  | _ => 0
  end.

(** Non-negative binary64 values: [+0] and the positive canonical floats. *)
Definition nnf (x : float) : Prop :=
  x = S754_zero false \/
  exists m e, x = S754_finite false m e /\ bounded prec emax m e = true.

Definition one : float := S754_finite false 4503599627370496 (-52).
Definition two : float := S754_finite false 4503599627370496 (-51).
Definition c256 : float := S754_finite false 4503599627370496 (-44).
Definition cFFFFFFFF : float := S754_finite false 9007199252643840 (-21).

(** A float of the unit interval. *)
Definition unit_float (x : float) : Prop := nnf x /\ fval x <= fval one.

(** The mantissa [binary_round_aux] rounds to. *)
Definition round_m (mrs : shr_record) : Z :=
  round_nearest_even (shr_m mrs) (loc_of_shr_record mrs).

(** Unit in which the constants' values are small integers. *)
Definition U : Z := 2 ^ (K - 128).

(** The unit interval is cut into 1024 cells.  On the cell
    [[i/1024, (i+1)/1024]] the factor [3.99 * x] stays below a float [A]
    and [1 - x] below a float [B] with [A * B <= 1]; [cell_check] tests
    this in exact arithmetic. *)
Definition cell_check (i : Z) : bool :=
  match binary_normalize prec emax (8984681256604140 * (i + 1) / 2 ^ 30 + 1) (-31) false,
        binary_normalize prec emax (1024 - i) (-10) false with
  | S754_finite false mA eA, S754_finite false mB eB =>
      bounded prec emax mA eA && bounded prec emax mB eB
      && (-128 <=? eA) && (-128 <=? eB)
      && (8984681256604140 * (i + 1) * 2 ^ 67 <=? Zpos mA * 2 ^ (eA + 128))
      && ((1024 - i) * 2 ^ 118 <=? Zpos mB * 2 ^ (eB + 128))
      && (Zpos mA * 2 ^ (eA + 128) * (Zpos mB * 2 ^ (eB + 128)) <=? 2 ^ 256)
  | _, _ => false
  end.

End Rounding.

Import Rounding.

Lemma K_eq : K = 2200.
Proof. reflexivity. Qed.

Global Opaque K.

Ltac klia := pose proof K_eq; unfold emin in *; lia.

Lemma fexp_eq e : fexp prec emax e = Z.max (e - 53) emin.
Proof. reflexivity. Qed.

Lemma pow2_double n : 0 <= n -> 2 ^ (n + 1) = 2 * 2 ^ n.
Proof. intros. rewrite Z.pow_add_r by lia. change (2 ^ 1) with 2. lia. Qed.

Lemma digits2_pos_bounds p :
  2 ^ (Zpos (digits2_pos p) - 1) <= Zpos p < 2 ^ Zpos (digits2_pos p).
Proof.
  induction p as [p IH|p IH|]; cbn [digits2_pos].
  - rewrite Pos2Z.inj_succ. unfold Z.succ.
    replace (Zpos (digits2_pos p) + 1 - 1) with (Zpos (digits2_pos p) - 1 + 1) by lia.
    rewrite !pow2_double by lia. lia.
  - rewrite Pos2Z.inj_succ. unfold Z.succ.
    replace (Zpos (digits2_pos p) + 1 - 1) with (Zpos (digits2_pos p) - 1 + 1) by lia.
    rewrite !pow2_double by lia. lia.
  - cbn. lia.
Qed.

Lemma Zdigits2_bounds m :
  0 < m -> 2 ^ (Zdigits2 m - 1) <= m < 2 ^ Zdigits2 m.
Proof.
  destruct m as [|p|p]; try lia. intros _. apply digits2_pos_bounds.
Qed.

Lemma Zdigits2_nonneg m : 0 <= Zdigits2 m.
Proof. destruct m; cbn; lia. Qed.

Lemma pow2_lt_inv a b : 0 <= b -> 2 ^ a < 2 ^ b -> a < b.
Proof.
  intros Hb H. destruct (Z_lt_le_dec a b) as [|Hab]; [assumption|].
  exfalso. assert (2 ^ b <= 2 ^ a) by (apply Z.pow_le_mono_r; lia). lia.
Qed.

Lemma pow2_le a b : 0 <= a <= b -> 2 ^ a <= 2 ^ b.
Proof. intros. apply Z.pow_le_mono_r; lia. Qed.

Lemma Zdigits2_unique m k :
  0 < m -> 2 ^ (k - 1) <= m < 2 ^ k -> Zdigits2 m = k.
Proof.
  intros Hm [Hlo Hhi].
  pose proof (Zdigits2_bounds m Hm) as [Dlo Dhi].
  pose proof (Zdigits2_nonneg m) as Dn.
  assert (0 <= k).
  { destruct (Z_lt_le_dec k 0); [|assumption]. rewrite Z.pow_neg_r in Hhi; lia. }
  assert (Zdigits2 m - 1 < k) by (apply pow2_lt_inv; lia).
  assert (0 < Zdigits2 m) by (destruct m; cbn in *; lia).
  destruct (Z.eq_dec k 0) as [->|].
  { change (2 ^ 0) with 1 in Hhi. lia. }
  assert (k - 1 < Zdigits2 m) by (apply pow2_lt_inv; lia).
  lia.
Qed.

(** ** Right shifts with round and sticky bits *)

Lemma shr_1_m mrs : 0 <= shr_m mrs -> shr_m (shr_1 mrs) = shr_m mrs / 2.
Proof.
  destruct mrs as [m r s]. cbn [shr_m]. intros Hm.
  destruct m as [|[p|p|]|p]; cbn [shr_1 shr_m]; try lia.
  - reflexivity.
  - rewrite Pos2Z.inj_xI.
    apply Z.div_unique with (r := 1); lia.
  - rewrite Pos2Z.inj_xO.
    apply Z.div_unique with (r := 0); lia.
  - reflexivity.
Qed.

Lemma shr_1_r mrs : 0 <= shr_m mrs -> shr_r (shr_1 mrs) = Z.odd (shr_m mrs).
Proof.
  destruct mrs as [m r s]. cbn [shr_m]. intros Hm.
  destruct m as [|[p|p|]|p]; cbn [shr_1 shr_r]; try reflexivity; lia.
Qed.

Lemma iter_shr_1 p : forall mrs,
  0 <= shr_m mrs ->
  shr_m (iter_pos shr_1 p mrs) = shr_m mrs / 2 ^ Zpos p /\
  shr_r (iter_pos shr_1 p mrs) = Z.odd (shr_m mrs / 2 ^ (Zpos p - 1)).
Proof.
  induction p as [p IH|p IH|]; intros mrs Hm; cbn [iter_pos].
  - assert (H1 : 0 <= shr_m (shr_1 mrs)).
    { rewrite shr_1_m by assumption. apply Z.div_pos; lia. }
    destruct (IH _ H1) as [A1 _].
    assert (H2 : 0 <= shr_m (iter_pos shr_1 p (shr_1 mrs))).
    { rewrite A1. apply Z.div_pos; [assumption|]. apply Z.pow_pos_nonneg; lia. }
    destruct (IH _ H2) as [B1 B2].
    rewrite B1, B2, A1, shr_1_m by assumption.
    assert (P0 : 0 < 2 ^ Zpos p) by (apply Z.pow_pos_nonneg; lia).
    assert (P1 : 0 < 2 ^ (Zpos p - 1)) by (apply Z.pow_pos_nonneg; lia).
    rewrite !Z.div_div by lia.
    split; f_equal; [|f_equal].
    + replace (Zpos p~1) with (1 + Zpos p + Zpos p) by lia.
      rewrite !Z.pow_add_r by lia. change (2 ^ 1) with 2. lia.
    + replace (Zpos p~1 - 1) with (1 + Zpos p + (Zpos p - 1)) by lia.
      rewrite !Z.pow_add_r by lia. change (2 ^ 1) with 2. lia.
  - destruct (IH _ Hm) as [A1 _].
    assert (H2 : 0 <= shr_m (iter_pos shr_1 p mrs)).
    { rewrite A1. apply Z.div_pos; [assumption|]. apply Z.pow_pos_nonneg; lia. }
    destruct (IH _ H2) as [B1 B2].
    rewrite B1, B2, A1.
    assert (P0 : 0 < 2 ^ Zpos p) by (apply Z.pow_pos_nonneg; lia).
    assert (P1 : 0 < 2 ^ (Zpos p - 1)) by (apply Z.pow_pos_nonneg; lia).
    rewrite !Z.div_div by lia.
    split; f_equal; [|f_equal].
    + replace (Zpos p~0) with (Zpos p + Zpos p) by lia.
      rewrite !Z.pow_add_r by lia. lia.
    + replace (Zpos p~0 - 1) with (Zpos p + (Zpos p - 1)) by lia.
      rewrite !Z.pow_add_r by lia. lia.
  - split.
    + rewrite shr_1_m by assumption. reflexivity.
    + rewrite shr_1_r by assumption. change (2 ^ (1 - 1)) with 1.
      now rewrite Z.div_1_r.
Qed.

Lemma round_m_bounds mrs : shr_m mrs <= round_m mrs <= shr_m mrs + 1.
Proof.
  destruct mrs as [m [|] [|]]; unfold round_m; cbn; try destruct (Z.even m); lia.
Qed.

Lemma round_m_r_false mrs : shr_r mrs = false -> round_m mrs = shr_m mrs.
Proof.
  destruct mrs as [m [|] [|]]; unfold round_m; cbn; congruence.
Qed.

Lemma round_m_exact m : round_m (shr_record_of_loc m loc_Exact) = m.
Proof. reflexivity. Qed.

Lemma shr_m_of_loc m l : shr_m (shr_record_of_loc m l) = m.
Proof. destruct l as [|[ | | ]]; reflexivity. Qed.

(** The first shift of [binary_round_aux]: by [n >= 0] places. *)
Lemma shr_fexp_spec m e l :
  0 <= m ->
  e <= fexp prec emax (Zdigits2 m + e) ->
  exists mrs,
    shr_fexp prec emax m e l = (mrs, fexp prec emax (Zdigits2 m + e)) /\
    shr_m mrs = m / 2 ^ (fexp prec emax (Zdigits2 m + e) - e) /\
    (fexp prec emax (Zdigits2 m + e) = e -> mrs = shr_record_of_loc m l) /\
    (e < fexp prec emax (Zdigits2 m + e) ->
     shr_r mrs = Z.odd (m / 2 ^ (fexp prec emax (Zdigits2 m + e) - e - 1))).
Proof.
  intros Hm He. unfold shr_fexp, shr.
  set (e1 := fexp prec emax (Zdigits2 m + e)) in *.
  destruct (e1 - e) as [|p|p] eqn:Hn; try lia.
  - exists (shr_record_of_loc m l).
    assert (e1 = e) as -> by lia.
    rewrite shr_m_of_loc, Z.div_1_r. repeat split; auto; lia.
  - destruct (iter_shr_1 p (shr_record_of_loc m l)) as [A B].
    { now rewrite shr_m_of_loc. }
    rewrite shr_m_of_loc in A, B.
    exists (iter_pos shr_1 p (shr_record_of_loc m l)).
    repeat split; auto; try lia.
    f_equal. lia.
Qed.

Lemma shr_fexp_noshift m e :
  fexp prec emax (Zdigits2 m + e) <= e ->
  shr_fexp prec emax m e loc_Exact = (Build_shr_record m false false, e).
Proof.
  intros H. unfold shr_fexp, shr. cbn [shr_record_of_loc].
  destruct (fexp prec emax (Zdigits2 m + e) - e) eqn:Hn; try reflexivity; lia.
Qed.

Lemma canonical_inv mb eb :
  bounded prec emax mb eb = true ->
  emin <= eb <= 971 /\ Zpos (digits2_pos mb) <= 53 /\
  (emin < eb -> Zpos (digits2_pos mb) = 53) /\
  fexp prec emax (Zpos (digits2_pos mb) + eb) = eb.
Proof.
  unfold bounded, canonical_mantissa. rewrite andb_true_iff, Z.eqb_eq, Z.leb_le.
  rewrite fexp_eq. unfold emin, emax, prec. lia.
Qed.

Lemma bounded_intro m e :
  emin <= e <= 971 -> Zpos (digits2_pos m) <= 53 ->
  (emin < e -> Zpos (digits2_pos m) = 53) ->
  bounded prec emax m e = true.
Proof.
  intros. unfold bounded, canonical_mantissa.
  rewrite andb_true_iff, Z.eqb_eq, Z.leb_le, fexp_eq.
  unfold emin, emax, prec in *. lia.
Qed.

Lemma val_pow2 a e : 0 <= a -> - K <= e -> val (2 ^ a) e = 2 ^ (a + e + K).
Proof.
  intros. unfold val. rewrite <- Z.pow_add_r by lia. f_equal. lia.
Qed.

Lemma val_nonneg m e : 0 <= m -> 0 <= val m e.
Proof. intros. unfold val. apply Z.mul_nonneg_nonneg; [lia | apply Z.pow_nonneg; lia]. Qed.

Lemma val_mono m1 m2 e : - K <= e -> m1 <= m2 -> val m1 e <= val m2 e.
Proof.
  intros. unfold val. apply Z.mul_le_mono_nonneg_r; [|assumption].
  apply Z.pow_nonneg. lia.
Qed.

Lemma val_shift m e n : 0 <= n -> - K <= e -> val m (e + n) = val (m * 2 ^ n) e.
Proof.
  intros. unfold val. replace (e + n + K) with (n + (e + K)) by lia.
  rewrite Z.pow_add_r by lia. ring.
Qed.

Lemma val_lt_inv m1 m2 e : - K <= e -> val m1 e < val m2 e -> m1 < m2.
Proof.
  unfold val. intros He H.
  assert (0 < 2 ^ (e + K)) by (apply Z.pow_pos_nonneg; lia). nia.
Qed.

Lemma val_le_inv m1 m2 e : - K <= e -> val m1 e <= val m2 e -> m1 <= m2.
Proof.
  unfold val. intros He H.
  assert (0 < 2 ^ (e + K)) by (apply Z.pow_pos_nonneg; lia). nia.
Qed.

(** ** The rounding step keeps every representable upper bound

    [m * 2^e], possibly a strict lower bound of the value being rounded
    when [l] is inexact, rounds to a canonical non-negative float that
    does not exceed a representable float above that value. *)
Lemma round_aux_le m e l mb eb :
  0 <= m -> - K <= e ->
  e <= fexp prec emax (Zdigits2 m + e) ->
  bounded prec emax mb eb = true ->
  val m e < val (Zpos mb) eb \/ (l = loc_Exact /\ val m e <= val (Zpos mb) eb) ->
  nnf (binary_round_aux prec emax false m e l) /\
  fval (binary_round_aux prec emax false m e l) <= val (Zpos mb) eb.
Proof.
  intros Hm HK He HB Hle.
  destruct (canonical_inv _ _ HB) as (Heb & Hdb & Hdb53 & _).
  pose proof (digits2_pos_bounds mb) as [Blo Bhi].
  set (db := Zpos (digits2_pos mb)) in *.
  assert (HKe : - K <= eb) by (klia).
  assert (Hle' : val m e <= val (Zpos mb) eb) by (destruct Hle as [|[_ ?]]; lia).
  set (e1 := fexp prec emax (Zdigits2 m + e)) in *.
  assert (He1 : emin <= e1) by (unfold e1; rewrite fexp_eq; lia).
  (* the canonical exponent of the input does not exceed that of the bound *)
  assert (He1b : e1 <= eb).
  { destruct (Z.eq_dec m 0) as [->|Hm0].
    - unfold e1 in *. cbn [Zdigits2] in *. rewrite fexp_eq in *. lia.
    - pose proof (Zdigits2_bounds m ltac:(lia)) as [Dlo Dhi].
      pose proof (Zdigits2_nonneg m).
      assert (0 < Zdigits2 m) by (destruct m; cbn in *; lia).
      assert (val (2 ^ (Zdigits2 m - 1)) e <= val m e) by (apply val_mono; lia).
      assert (val (Zpos mb) eb < val (2 ^ db) eb).
      { unfold val. apply Z.mul_lt_mono_pos_r; [apply Z.pow_pos_nonneg; lia | lia]. }
      rewrite val_pow2 in * by lia.
      assert (Zdigits2 m - 1 + e + K < db + eb + K) by (apply pow2_lt_inv; lia).
      unfold e1. rewrite fexp_eq. lia. }
  destruct (shr_fexp_spec m e l Hm He) as (mrs & Eq1 & Hm1 & Hn0 & Hr).
  fold e1 in Eq1, Hm1, Hn0, Hr.
  unfold binary_round_aux. rewrite Eq1. fold (round_m mrs).
  pose proof (round_m_bounds mrs) as [R1 R2].
  set (m2 := round_m mrs) in *.
  set (n := e1 - e) in *.
  assert (Hn : 0 <= n) by (unfold n; lia).
  assert (Pn : 0 < 2 ^ n) by (apply Z.pow_pos_nonneg; lia).
  assert (Hm1nn : 0 <= shr_m mrs) by (rewrite Hm1; apply Z.div_pos; lia).
  (* the shifted mantissa has at most 53 bits *)
  assert (Hm1hi : shr_m mrs < 2 ^ 53).
  { rewrite Hm1. destruct (Z.eq_dec m 0) as [->|Hm0].
    - rewrite Z.div_0_l by lia. lia.
    - pose proof (Zdigits2_bounds m ltac:(lia)) as [Dlo Dhi].
      apply Z.div_lt_upper_bound; [lia|].
      assert (Zdigits2 m <= n + 53).
      { unfold n, e1. rewrite fexp_eq. lia. }
      pose proof (Zdigits2_nonneg m).
      assert (2 ^ Zdigits2 m <= 2 ^ (n + 53)) by (apply pow2_le; lia).
      rewrite Z.pow_add_r in * by lia. lia. }
  (* and exactly 53 bits in the normal range *)
  assert (Hm1lo : emin < e1 -> 2 ^ 52 <= shr_m mrs).
  { intros Hnorm. rewrite Hm1.
    assert (Hm0 : m <> 0).
    { intros ->. unfold e1 in *. cbn [Zdigits2] in *. rewrite fexp_eq in *. lia. }
    pose proof (Zdigits2_bounds m ltac:(lia)) as [Dlo Dhi].
    assert (Zdigits2 m - 1 = n + 52).
    { unfold n, e1 in *. rewrite fexp_eq in *. lia. }
    apply Z.div_le_lower_bound; [lia|].
    replace (2 ^ n * 2 ^ 52) with (2 ^ (Zdigits2 m - 1)); [lia|].
    rewrite <- Z.pow_add_r by lia. f_equal. lia. }
  (* where the exponents agree the rounded mantissa stays below the bound *)
  assert (Hsame : e1 = eb -> m2 <= Zpos mb).
  { intros Heq.
    assert (Hv : val (Zpos mb) eb = val (Zpos mb * 2 ^ n) e).
    { rewrite <- val_shift by lia. f_equal. unfold n. lia. }
    rewrite Hv in Hle, Hle'.
    apply val_le_inv in Hle'; [|lia].
    assert (shr_m mrs <= Zpos mb).
    { rewrite Hm1. apply Z.div_le_upper_bound; lia. }
    destruct (Z.eq_dec (shr_m mrs) (Zpos mb)) as [Heqm|]; [|lia].
    assert (Zpos mb * 2 ^ n <= m).
    { rewrite <- Heqm, Hm1. rewrite Z.mul_comm. apply Z.mul_div_le. lia. }
    destruct Hle as [Hlt|[-> _]].
    { apply val_lt_inv in Hlt; lia. }
    assert (Hmeq : m = Zpos mb * 2 ^ n) by lia.
    destruct (Z.eq_dec n 0) as [Hn0'|Hn0'].
    - assert (Hee : e1 = e) by (unfold n in *; lia).
      unfold m2. rewrite (Hn0 Hee), round_m_exact.
      rewrite (Hn0 Hee), shr_m_of_loc in Heqm. lia.
    - unfold m2. rewrite round_m_r_false; [lia|].
      rewrite Hr by lia. fold n.
      replace (m / 2 ^ (n - 1)) with (2 * Zpos mb).
      + rewrite Z.odd_mul. reflexivity.
      + rewrite Hmeq. replace n with (1 + (n - 1)) at 1 by lia.
        rewrite Z.pow_add_r by lia. change (2 ^ 1) with 2.
        assert (0 < 2 ^ (n - 1)) by (apply Z.pow_pos_nonneg; lia).
        replace (Zpos mb * (2 * 2 ^ (n - 1))) with (2 * Zpos mb * 2 ^ (n - 1)) by ring.
        now rewrite Z.div_mul by lia. }
  (* a bound with a larger exponent dominates every 53-bit mantissa *)
  assert (Hbig : e1 < eb -> 2 ^ (53 + e1 + K) <= val (Zpos mb) eb).
  { intros Hlt.
    assert (db = 53) by (apply Hdb53; lia).
    assert (val (2 ^ 52) eb <= val (Zpos mb) eb).
    { apply val_mono; [lia|]. replace 52 with (db - 1) by lia. exact Blo. }
    rewrite val_pow2 in * by lia.
    assert (2 ^ (53 + e1 + K) <= 2 ^ (52 + eb + K)); [|lia].
    apply pow2_le. klia. }
  destruct (Z_lt_le_dec m2 (2 ^ 53)) as [Hlt53|Hge53].
  - (* no carry out of the mantissa *)
    assert (Hfx : fexp prec emax (Zdigits2 m2 + e1) <= e1).
    { destruct (Z.eq_dec m2 0) as [->|Hm20].
      - cbn [Zdigits2]. rewrite fexp_eq. lia.
      - pose proof (Zdigits2_bounds m2 ltac:(lia)) as [Dlo Dhi].
        pose proof (Zdigits2_nonneg m2).
        assert (Zdigits2 m2 - 1 < 53) by (apply pow2_lt_inv; lia).
        rewrite fexp_eq. lia. }
    rewrite (shr_fexp_noshift _ _ Hfx). cbn [shr_m].
    destruct m2 as [|p2|p2] eqn:Em2; try lia.
    + split; [left; reflexivity | cbn [fval]; apply val_nonneg; lia].
    + replace (e1 <=? emax - prec) with true
        by (symmetry; apply Z.leb_le; unfold emax, prec; lia).
      assert (Hd2 : Zpos (digits2_pos p2) <= 53).
      { pose proof (digits2_pos_bounds p2) as [Dlo Dhi].
        assert (Zpos (digits2_pos p2) - 1 < 53) by (apply pow2_lt_inv; lia). lia. }
      split.
      * right. exists p2, e1. split; [reflexivity|].
        apply bounded_intro; [lia | lia |].
        intros Hnorm. specialize (Hm1lo Hnorm).
        apply (Zdigits2_unique (Zpos p2) 53); lia.
      * cbn [fval]. destruct (Z.eq_dec e1 eb) as [Heq|Hne].
        -- rewrite Heq. apply val_mono; [lia|]. apply Hsame. exact Heq.
        -- assert (val (Zpos p2) e1 <= val (2 ^ 53) e1) by (apply val_mono; lia).
           rewrite val_pow2 in * by lia.
           specialize (Hbig ltac:(lia)). lia.
  - (* the mantissa carried into bit 53 *)
    assert (Em2 : m2 = 2 ^ 53) by lia.
    assert (Hlt : e1 < eb).
    { destruct (Z.eq_dec e1 eb) as [Heq|]; [|lia].
      specialize (Hsame Heq).
      assert (2 ^ db <= 2 ^ 53) by (apply pow2_le; lia). lia. }
    rewrite Em2. change (2 ^ 53) with 9007199254740992.
    unfold shr_fexp, shr. cbn [Zdigits2 digits2_pos Pos.succ shr_record_of_loc].
    rewrite fexp_eq.
    replace (Z.max (54 + e1 - 53) emin - e1) with 1 by lia.
    cbn [iter_pos shr_1 shr_m].
    replace (e1 + 1 <=? emax - prec) with true
      by (symmetry; apply Z.leb_le; unfold emax, prec; lia).
    split.
    + right. exists 4503599627370496%positive, (e1 + 1). split; [reflexivity|].
      apply bounded_intro; cbn; lia.
    + cbn [fval]. change (Zpos 4503599627370496) with (2 ^ 52).
      rewrite val_pow2 by lia. specialize (Hbig Hlt).
      replace (52 + (e1 + 1) + K) with (53 + e1 + K) by lia. exact Hbig.
Qed.

(** ** Alignment and [binary_round] *)

Lemma iter_xO_spec d m : Zpos (Pos.iter xO m d) = Zpos m * 2 ^ Zpos d.
Proof.
  induction d as [|d IH] using Pos.peano_ind.
  - cbn. lia.
  - rewrite Pos.iter_succ, Pos2Z.inj_xO, IH, Pos2Z.inj_succ.
    unfold Z.succ. rewrite pow2_double by lia. ring.
Qed.

Lemma shl_align_spec mx ex ex' :
  exists mz,
    shl_align mx ex ex' = (mz, Z.min ex ex') /\
    Zpos mz = Zpos mx * 2 ^ (ex - Z.min ex ex').
Proof.
  unfold shl_align. destruct (ex' - ex) as [|p|p] eqn:Hd.
  - exists mx. replace (Z.min ex ex') with ex by lia.
    rewrite Z.sub_diag. split; [reflexivity | lia].
  - exists mx. replace (Z.min ex ex') with ex by lia.
    rewrite Z.sub_diag. split; [reflexivity | lia].
  - exists (Pos.iter xO mx p). replace (Z.min ex ex') with ex' by lia.
    split; [reflexivity|]. rewrite iter_xO_spec. f_equal. f_equal. lia.
Qed.

Lemma Zdigits2_shift m k :
  0 < m -> 0 <= k -> Zdigits2 (m * 2 ^ k) = Zdigits2 m + k.
Proof.
  intros Hm Hk. pose proof (Zdigits2_bounds m Hm) as [Dlo Dhi].
  assert (0 < Zdigits2 m) by (destruct m; cbn in *; lia).
  assert (0 < 2 ^ k) by (apply Z.pow_pos_nonneg; lia).
  apply Zdigits2_unique; [nia|].
  replace (Zdigits2 m + k - 1) with (Zdigits2 m - 1 + k) by lia.
  rewrite !Z.pow_add_r by lia. nia.
Qed.

Lemma binary_round_le mx ex mb eb :
  - K <= ex ->
  bounded prec emax mb eb = true ->
  val (Zpos mx) ex <= val (Zpos mb) eb ->
  nnf (binary_round prec emax false mx ex) /\
  fval (binary_round prec emax false mx ex) <= val (Zpos mb) eb.
Proof.
  intros HK HB Hle. unfold binary_round.
  set (e1 := fexp prec emax (Zpos (digits2_pos mx) + ex)).
  destruct (shl_align_spec mx ex e1) as (mz & Eq & Hmz). rewrite Eq.
  assert (He1 : emin <= e1) by (unfold e1; rewrite fexp_eq; lia).
  assert (Hv : val (Zpos mz) (Z.min ex e1) = val (Zpos mx) ex).
  { rewrite Hmz, <- val_shift by (klia). f_equal. lia. }
  apply round_aux_le; try lia.
  - klia.
  - rewrite Hmz, Zdigits2_shift by lia.
    replace (Zdigits2 (Zpos mx) + (ex - Z.min ex e1) + Z.min ex e1)
      with (Zpos (digits2_pos mx) + ex) by (cbn [Zdigits2]; lia).
    fold e1. lia.
  - exact HB.
  - right. split; [reflexivity|]. rewrite Hv. exact Hle.
Qed.

Lemma binary_normalize_le z e mb eb :
  0 <= z -> - K <= e ->
  bounded prec emax mb eb = true ->
  val z e <= val (Zpos mb) eb ->
  nnf (binary_normalize prec emax z e false) /\
  fval (binary_normalize prec emax z e false) <= val (Zpos mb) eb.
Proof.
  intros Hz HK HB Hle. destruct z as [|p|p]; try lia.
  - split; [left; reflexivity | cbn [binary_normalize fval]; apply val_nonneg; lia].
  - now apply binary_round_le.
Qed.

(** ** Comparison of canonical floats is comparison of values *)

Lemma val_pos m e : - K <= e -> 0 < val (Zpos m) e.
Proof. intros. unfold val. apply Z.mul_pos_pos; [lia | apply Z.pow_pos_nonneg; lia]. Qed.

Lemma val_lt_exp m1 e1 m2 e2 :
  bounded prec emax m1 e1 = true -> bounded prec emax m2 e2 = true ->
  e1 < e2 -> val (Zpos m1) e1 < val (Zpos m2) e2.
Proof.
  intros H1 H2 Hlt.
  destruct (canonical_inv _ _ H1) as (He1 & Hd1 & _ & _).
  destruct (canonical_inv _ _ H2) as (He2 & _ & Hd2 & _).
  pose proof (digits2_pos_bounds m1) as [_ Hhi].
  pose proof (digits2_pos_bounds m2) as [Hlo _].
  rewrite Hd2 in Hlo by lia.
  assert (2 ^ Zpos (digits2_pos m1) <= 2 ^ 53) by (apply pow2_le; lia).
  assert (A : val (Zpos m1) e1 < val (2 ^ 53) e1).
  { unfold val. apply Z.mul_lt_mono_pos_r; [apply Z.pow_pos_nonneg; klia | lia]. }
  assert (B : val (2 ^ 52) e2 <= val (Zpos m2) e2).
  { apply val_mono; [klia | exact Hlo]. }
  rewrite val_pow2 in A, B by (klia).
  assert (2 ^ (53 + e1 + K) <= 2 ^ (52 + e2 + K)); [|lia].
  apply pow2_le. klia.
Qed.

Lemma compare_val m1 e1 m2 e2 :
  bounded prec emax m1 e1 = true -> bounded prec emax m2 e2 = true ->
  SFcompare (S754_finite false m1 e1) (S754_finite false m2 e2)
  = Some (val (Zpos m1) e1 ?= val (Zpos m2) e2).
Proof.
  intros H1 H2. cbn [SFcompare]. f_equal.
  destruct (Z.compare_spec e1 e2) as [->|Hlt|Hgt].
  - rewrite Pos.compare_cont_spec. cbn [Pos.switch_Eq].
    destruct (canonical_inv _ _ H2) as (He2 & _).
    assert (0 < 2 ^ (e2 + K)) by (apply Z.pow_pos_nonneg; klia).
    unfold val. change (m1 ?= m2)%positive with (Zpos m1 ?= Zpos m2).
    destruct (Z.compare_spec (Zpos m1) (Zpos m2)) as [E|L|G]; symmetry.
    + apply Z.compare_eq_iff. now rewrite E.
    + apply Z.compare_lt_iff. nia.
    + apply Z.compare_gt_iff. nia.
  - symmetry. apply Z.compare_lt_iff. now apply val_lt_exp.
  - symmetry. apply Z.compare_gt_iff. now apply val_lt_exp.
Qed.

Lemma nnf_fval_nonneg x : nnf x -> 0 <= fval x.
Proof.
  intros [->|(m & e & -> & HB)]; cbn [fval]; [lia|].
  apply val_nonneg. lia.
Qed.

Lemma nnf_compare x y :
  nnf x -> nnf y -> SFcompare x y = Some (fval x ?= fval y).
Proof.
  intros [->|(m1 & e1 & -> & H1)] [->|(m2 & e2 & -> & H2)].
  - reflexivity.
  - cbn [SFcompare fval]. f_equal. symmetry. apply Z.compare_lt_iff.
    apply val_pos. destruct (canonical_inv _ _ H2). klia.
  - cbn [SFcompare fval]. f_equal. symmetry. apply Z.compare_gt_iff.
    apply val_pos. destruct (canonical_inv _ _ H1). klia.
  - now apply compare_val.
Qed.

Lemma ltb_val x y : nnf x -> nnf y -> ltb x y = true <-> fval x < fval y.
Proof.
  intros Hx Hy. unfold ltb, SFltb. rewrite (nnf_compare x y Hx Hy).
  destruct (Z.compare_spec (fval x) (fval y)); split; intros; try lia; try discriminate; reflexivity.
Qed.

Lemma leb_val x y : nnf x -> nnf y -> leb x y = true <-> fval x <= fval y.
Proof.
  intros Hx Hy. unfold leb, SFleb. rewrite (nnf_compare x y Hx Hy).
  destruct (Z.compare_spec (fval x) (fval y)); split; intros; try lia; try discriminate; reflexivity.
Qed.

(** ** The four operations on non-negative floats *)

Lemma mul_le a b mB eB :
  nnf a -> nnf b -> bounded prec emax mB eB = true ->
  fval a * fval b <= val (Zpos mB) eB * 2 ^ K ->
  nnf (mul a b) /\ fval (mul a b) <= val (Zpos mB) eB.
Proof.
  intros Ha Hb HB Hle.
  assert (Hz : 0 <= val (Zpos mB) eB) by (apply val_nonneg; lia).
  destruct Ha as [->|(ma & ea & -> & Ha)]; destruct Hb as [->|(mb & eb & -> & Hb)];
    try (split; [left; reflexivity | exact Hz]).
  unfold mul. cbn [SFmul xorb].
  destruct (canonical_inv _ _ Ha) as (Hea & Hda & Hda53 & _).
  destruct (canonical_inv _ _ Hb) as (Heb & Hdb & Hdb53 & _).
  pose proof (digits2_pos_bounds ma) as [Alo Ahi].
  pose proof (digits2_pos_bounds mb) as [Blo Bhi].
  set (da := Zpos (digits2_pos ma)) in *. set (db := Zpos (digits2_pos mb)) in *.
  assert (0 < da /\ 0 < db) as [Hda0 Hdb0] by (unfold da, db; lia).
  apply round_aux_le; try lia.
  - klia.
  - (* the product has enough digits for its exponent *)
    pose proof (Zdigits2_bounds (Zpos (ma * mb)) ltac:(lia)) as [_ Phi].
    set (dp := Zdigits2 (Zpos (ma * mb))) in *.
    assert (0 < dp) by (unfold dp; cbn; lia).
    assert (2 ^ (da - 1 + (db - 1)) < 2 ^ dp).
    { rewrite Z.pow_add_r by lia. rewrite Pos2Z.inj_mul in Phi.
      assert (2 ^ (da - 1) * 2 ^ (db - 1) <= Zpos ma * Zpos mb); [|lia].
      apply Z.mul_le_mono_nonneg; try lia; apply Z.pow_nonneg; lia. }
    assert (da - 1 + (db - 1) < dp) by (apply pow2_lt_inv; lia).
    rewrite fexp_eq. unfold emin in *. lia.
  - exact HB.
  - right. split; [reflexivity|].
    cbn [fval] in Hle.
    assert (E : val (Zpos ma) ea * val (Zpos mb) eb
                = val (Zpos (ma * mb)) (ea + eb) * 2 ^ K).
    { assert (P : 2 ^ (ea + K) * 2 ^ (eb + K) = 2 ^ (ea + eb + K) * 2 ^ K).
      { rewrite <- !Z.pow_add_r by (klia). f_equal. lia. }
      unfold val. rewrite Pos2Z.inj_mul.
      transitivity (Zpos ma * Zpos mb * (2 ^ (ea + K) * 2 ^ (eb + K))); [ring|].
      rewrite P. ring. }
    rewrite E in Hle.
    assert (0 < 2 ^ K) by (apply Z.pow_pos_nonneg; klia). nia.
Qed.

Lemma aligned_val m e ez :
  ez <= e -> - K <= ez ->
  val (Zpos (fst (shl_align m e ez))) ez = val (Zpos m) e.
Proof.
  intros Hle HK. destruct (shl_align_spec m e ez) as (mz & Eq & Hmz).
  rewrite Eq. cbn [fst]. rewrite Hmz.
  replace (Z.min e ez) with ez by lia.
  rewrite <- val_shift by lia. f_equal. lia.
Qed.

Lemma val_add m1 m2 e : val (m1 + m2) e = val m1 e + val m2 e.
Proof. unfold val. ring. Qed.

Lemma val_sub m1 m2 e : val (m1 - m2) e = val m1 e - val m2 e.
Proof. unfold val. ring. Qed.

Lemma add_le a b mB eB :
  nnf a -> nnf b -> bounded prec emax mB eB = true ->
  fval a + fval b <= val (Zpos mB) eB ->
  nnf (add a b) /\ fval (add a b) <= val (Zpos mB) eB.
Proof.
  intros Ha Hb HB Hle.
  pose proof (nnf_fval_nonneg a Ha). pose proof (nnf_fval_nonneg b Hb).
  destruct Ha as [->|(ma & ea & -> & Ha)]; destruct Hb as [->|(mb & eb & -> & Hb)].
  - split; [left; reflexivity | cbn [add SFadd fval] in *; lia].
  - split; [right; exists mb, eb; split; [reflexivity | exact Hb]
           | cbn [add SFadd fval] in *; lia].
  - split; [right; exists ma, ea; split; [reflexivity | exact Ha]
           | cbn [add SFadd fval] in *; lia].
  - unfold add. cbn [SFadd cond_Zopp].
    destruct (canonical_inv _ _ Ha) as (Hea & _).
    destruct (canonical_inv _ _ Hb) as (Heb & _).
    apply binary_normalize_le; try lia.
    + klia.
    + exact HB.
    + rewrite val_add, !aligned_val by (klia).
      exact Hle.
Qed.

Lemma sub_le a b mB eB :
  nnf a -> nnf b -> bounded prec emax mB eB = true ->
  fval b <= fval a ->
  fval a - fval b <= val (Zpos mB) eB ->
  nnf (sub a b) /\ fval (sub a b) <= val (Zpos mB) eB.
Proof.
  intros Ha Hb HB Hba Hle.
  pose proof (nnf_fval_nonneg a Ha). pose proof (nnf_fval_nonneg b Hb).
  destruct Ha as [->|(ma & ea & -> & Ha)]; destruct Hb as [->|(mb & eb & -> & Hb)].
  - split; [left; reflexivity | cbn [sub SFsub fval] in *; lia].
  - exfalso. cbn [fval] in Hba.
    destruct (canonical_inv _ _ Hb) as (Heb & _).
    pose proof (val_pos mb eb ltac:(klia)). lia.
  - split; [right; exists ma, ea; split; [reflexivity | exact Ha]
           | cbn [sub SFsub fval] in *; lia].
  - unfold sub. cbn [SFsub cond_Zopp].
    destruct (canonical_inv _ _ Ha) as (Hea & _).
    destruct (canonical_inv _ _ Hb) as (Heb & _).
    cbn [fval] in *.
    assert (Hv : val (Zpos (fst (shl_align ma ea (Z.min ea eb)))
                      - Zpos (fst (shl_align mb eb (Z.min ea eb)))) (Z.min ea eb)
                 = val (Zpos ma) ea - val (Zpos mb) eb).
    { rewrite val_sub, !aligned_val by (klia). reflexivity. }
    apply binary_normalize_le; try lia.
    + apply (val_le_inv _ _ (Z.min ea eb)); [klia|].
      rewrite Hv. replace (val 0 (Z.min ea eb)) with 0 by (unfold val; lia). lia.
    + klia.
    + exact HB.
Qed.

Lemma div_core_spec ma ea mb eb :
  let e' := Z.min (fexp prec emax (Zpos (digits2_pos ma) + ea
                                   - (Zpos (digits2_pos mb) + eb))) (ea - eb) in
  exists q r l,
    SFdiv_core_binary prec emax (Zpos ma) ea (Zpos mb) eb = (q, e', l) /\
    Zpos ma * 2 ^ (ea - eb - e') = Zpos mb * q + r /\ 0 <= r < Zpos mb.
Proof.
  intros e'. unfold SFdiv_core_binary. cbn [Zdigits2]. fold e'.
  set (s := ea - eb - e').
  assert (Hs : 0 <= s) by (unfold s, e'; lia).
  set (m' := match s with Z0 => Zpos ma | Zpos _ => Z.shiftl (Zpos ma) s | Zneg _ => 0 end).
  assert (Hm' : m' = Zpos ma * 2 ^ s).
  { unfold m'. destruct s as [|p|p] eqn:Es; try lia.
    now rewrite Z.shiftl_mul_pow2 by lia. }
  pose proof (Z_div_mod m' (Zpos mb) ltac:(lia)) as Hdm.
  destruct (Z.div_eucl m' (Zpos mb)) as [q r].
  exists q, r, (new_location (Zpos mb) r).
  split; [reflexivity|]. rewrite <- Hm'. exact Hdm.
Qed.

Lemma div_le a mb eb mB eB :
  nnf a -> bounded prec emax mb eb = true -> bounded prec emax mB eB = true ->
  fval a * 2 ^ K < val (Zpos mb) eb * val (Zpos mB) eB ->
  nnf (div a (S754_finite false mb eb)) /\
  fval (div a (S754_finite false mb eb)) <= val (Zpos mB) eB.
Proof.
  intros Ha Hb HB Hlt.
  destruct Ha as [->|(ma & ea & -> & Ha)].
  { split; [left; reflexivity | cbn [div SFdiv fval]; apply val_nonneg; lia]. }
  unfold div. cbn [SFdiv xorb].
  destruct (div_core_spec ma ea mb eb) as (q & r & l & Eq & Hqr & Hr).
  rewrite Eq. clear Eq.
  destruct (canonical_inv _ _ Ha) as (Hea & Hda & _).
  destruct (canonical_inv _ _ Hb) as (Heb & Hdb & _).
  pose proof (digits2_pos_bounds ma) as [Alo Ahi].
  pose proof (digits2_pos_bounds mb) as [Blo Bhi].
  set (da := Zpos (digits2_pos ma)) in *. set (db := Zpos (digits2_pos mb)) in *.
  assert (0 < da /\ 0 < db) as [Hda0 Hdb0] by (unfold da, db; lia).
  set (e' := Z.min (fexp prec emax (da + ea - (db + eb))) (ea - eb)) in *.
  set (s := ea - eb - e') in *.
  assert (Hs : 0 <= s) by (unfold s, e'; lia).
  assert (Ps : 0 < 2 ^ s) by (apply Z.pow_pos_nonneg; lia).
  assert (Hq : 0 <= q) by nia.
  assert (HKe : - K <= e').
  { unfold e'. rewrite fexp_eq. klia. }
  apply round_aux_le; try lia.
  - (* the quotient has enough digits for its exponent *)
    assert (Hdq : da + s - db <= Zdigits2 q).
    { pose proof (Zdigits2_nonneg q) as Dq.
      assert (q + 1 <= 2 ^ Zdigits2 q).
      { destruct (Z.eq_dec q 0) as [->|]; [cbn; lia|].
        pose proof (Zdigits2_bounds q ltac:(lia)). lia. }
      assert (2 ^ (da - 1 + s) <= Zpos ma * 2 ^ s).
      { rewrite Z.pow_add_r by lia. apply Z.mul_le_mono_nonneg_r; lia. }
      assert (Zpos mb * (q + 1) < 2 ^ (db + Zdigits2 q)).
      { rewrite Z.pow_add_r by lia.
        assert (0 < 2 ^ Zdigits2 q) by (apply Z.pow_pos_nonneg; lia). nia. }
      assert (da - 1 + s < db + Zdigits2 q) by (apply pow2_lt_inv; nia).
      lia. }
    rewrite fexp_eq. unfold s, e' in *. rewrite fexp_eq in *. lia.
  - exact HB.
  - left. cbn [fval] in Hlt.
    assert (E : val q e' * val (Zpos mb) eb <= val (Zpos ma) ea * 2 ^ K).
    { assert (P : 2 ^ (e' + K) * 2 ^ (eb + K) * 2 ^ s = 2 ^ (ea + K) * 2 ^ K).
      { rewrite <- !Z.pow_add_r by (klia). f_equal.
        unfold s. lia. }
      unfold val.
      assert (Q : 0 < 2 ^ (e' + K) * 2 ^ (eb + K))
        by (apply Z.mul_pos_pos; apply Z.pow_pos_nonneg; klia).
      transitivity (Zpos ma * 2 ^ s * (2 ^ (e' + K) * 2 ^ (eb + K))).
      - replace (q * 2 ^ (e' + K) * (Zpos mb * 2 ^ (eb + K)))
          with (Zpos mb * q * (2 ^ (e' + K) * 2 ^ (eb + K))) by ring.
        apply Z.mul_le_mono_nonneg_r; lia.
      - replace (Zpos ma * 2 ^ s * (2 ^ (e' + K) * 2 ^ (eb + K)))
          with (Zpos ma * (2 ^ (e' + K) * 2 ^ (eb + K) * 2 ^ s)) by ring.
        rewrite P. apply Z.eq_le_incl. ring. }
    pose proof (val_pos mb eb ltac:(klia)).
    pose proof (val_nonneg q e' Hq).
    apply Z.nle_gt. intros Hc.
    assert (val (Zpos mb) eb * val (Zpos mB) eB <= val q e' * val (Zpos mb) eb) by nia.
    lia.
Qed.

(** ** Values of the constants, in units of [U] *)

Lemma U_pos : 0 < U.
Proof. apply Z.pow_pos_nonneg; klia. Qed.

Lemma val_scaled m e : -128 <= e -> val m e = m * 2 ^ (e + 128) * U.
Proof.
  intros. unfold val, U. rewrite <- Z.mul_assoc, <- Z.pow_add_r by (klia).
  do 2 f_equal. lia.
Qed.

Lemma pow2K_scaled : 2 ^ K = 2 ^ 128 * U.
Proof. unfold U. rewrite <- Z.pow_add_r by (klia). f_equal. Qed.

Lemma of_int_1 : of_int 1 = one.
Proof. reflexivity. Qed.

Lemma of_int_2 : of_int 2 = two.
Proof. reflexivity. Qed.

Lemma of_int_256 : of_int 256 = c256.
Proof. reflexivity. Qed.

Lemma nnf_finite m e :
  bounded prec emax m e = true -> nnf (S754_finite false m e).
Proof. intros H. right. exists m, e. split; [reflexivity | exact H]. Qed.

Lemma fval_one : fval one = 2 ^ 128 * U.
Proof. cbn [fval one]. rewrite val_scaled by lia. reflexivity. Qed.

Lemma tent_map_unit y : unit_float y -> unit_float (tent_map y).
Proof.
  intros [Hy Hy1]. unfold tent_map, unit_float.
  assert (N5 : nnf c0_5) by (apply nnf_finite; reflexivity).
  assert (N1 : nnf one) by (apply nnf_finite; reflexivity).
  assert (N199 : nnf c1_99) by (apply nnf_finite; reflexivity).
  pose proof U_pos as HU. pose proof (nnf_fval_nonneg y Hy) as Hy0.
  assert (F199 : fval c1_99 = 8962163258467287 * 2 ^ 76 * U)
    by (cbn [fval c1_99]; rewrite val_scaled by lia; reflexivity).
  assert (F5 : fval c0_5 = 2 ^ 127 * U)
    by (cbn [fval c0_5]; rewrite val_scaled by lia; reflexivity).
  assert (Hy1' : fval y <= 2 ^ 128 * U) by (now rewrite <- fval_one).
  change (fval one) with (val (Zpos 4503599627370496) (-52)).
  destruct (ltb y c0_5) eqn:Hlt.
  - apply (ltb_val y c0_5 Hy N5) in Hlt.
    apply mul_le; auto.
    rewrite (val_scaled _ (-52)) by lia. rewrite pow2K_scaled, F199.
    rewrite F5 in Hlt.
    transitivity (8962163258467287 * 2 ^ 76 * U * (2 ^ 127 * U)).
    + apply Z.mul_le_mono_nonneg_l; lia.
    + change (Zpos 4503599627370496 * 2 ^ (-52 + 128)) with (2 ^ 128).
      assert (0 < U * U) by nia. nia.
  - assert (Hge : fval c0_5 <= fval y).
    { destruct (Z_lt_le_dec (fval y) (fval c0_5)) as [Hc|]; [|assumption].
      apply (ltb_val y c0_5 Hy N5) in Hc. congruence. }
    rewrite of_int_1.
    destruct (sub_le one y 4503599627370496 (-53) N1 Hy eq_refl) as [S1 S2].
    { rewrite fval_one. exact Hy1'. }
    { rewrite fval_one.
      change (val (Zpos 4503599627370496) (-53)) with (fval c0_5). lia. }
    apply mul_le; auto.
    rewrite (val_scaled _ (-52)) by lia. rewrite pow2K_scaled, F199.
    change (val (Zpos 4503599627370496) (-53)) with (fval c0_5) in S2.
    rewrite F5 in S2.
    pose proof (nnf_fval_nonneg _ S1).
    transitivity (8962163258467287 * 2 ^ 76 * U * (2 ^ 127 * U)).
    + apply Z.mul_le_mono_nonneg_l; lia.
    + change (Zpos 4503599627370496 * 2 ^ (-52 + 128)) with (2 ^ 128).
      assert (0 < U * U) by nia. nia.
Qed.

(** ** The logistic map on the unit interval *)

Lemma cell_check_all i : 0 <= i <= 1023 -> cell_check i = true.
Proof.
  intros Hi.
  assert (H : forallb cell_check (List.map Z.of_nat (seq 0 1024)) = true)
    by (vm_compute; reflexivity).
  rewrite forallb_forall in H. apply H.
  apply in_map_iff. exists (Z.to_nat i). split; [lia|].
  apply in_seq. lia.
Qed.

Lemma logistic_map_unit x : unit_float x -> unit_float (logistic_map x).
Proof.
  intros [Hx Hx1]. unfold logistic_map, unit_float.
  pose proof U_pos as HU. pose proof (nnf_fval_nonneg x Hx) as Hx0.
  rewrite fval_one in Hx1.
  assert (N1 : nnf one) by (apply nnf_finite; reflexivity).
  assert (N399 : nnf c3_99) by (apply nnf_finite; reflexivity).
  assert (F399 : fval c3_99 = 8984681256604140 * 2 ^ 77 * U)
    by (cbn [fval c3_99]; rewrite val_scaled by lia; reflexivity).
  set (C := 2 ^ 118 * U).
  assert (HC : 0 < C) by (unfold C; lia).
  assert (HC1 : 2 ^ 128 * U = 1024 * C) by (unfold C; lia).
  set (i := Z.min 1023 (fval x / C)).
  assert (Hdiv : 0 <= fval x / C) by (apply Z.div_pos; lia).
  assert (Hi : 0 <= i <= 1023) by (unfold i; lia).
  assert (Hlo : i * C <= fval x).
  { pose proof (Z.mul_div_le (fval x) C HC). unfold i. nia. }
  assert (Hhi : fval x <= (i + 1) * C).
  { destruct (Z_lt_le_dec (fval x / C) 1023) as [Hc|Hc].
    - unfold i. rewrite Z.min_r by lia.
      pose proof (Z.mul_succ_div_gt (fval x) C HC). unfold Z.succ in *. nia.
    - unfold i. rewrite Z.min_l by lia. lia. }
  clearbody i.
  pose proof (cell_check_all i Hi) as Hck. unfold cell_check in Hck.
  destruct (binary_normalize prec emax (8984681256604140 * (i + 1) / 2 ^ 30 + 1) (-31) false)
    as [ | | |[|] mA eA]; try discriminate Hck.
  destruct (binary_normalize prec emax (1024 - i) (-10) false)
    as [ | | |[|] mB eB]; try discriminate Hck.
  rewrite !andb_true_iff, !Z.leb_le in Hck.
  destruct Hck as ((((((BA & BB) & EA) & EB) & CA) & CB) & CAB).
  (* 3.99 * x *)
  destruct (mul_le c3_99 x mA eA N399 Hx BA) as [T1 T1le].
  { rewrite (val_scaled _ eA) by lia. rewrite pow2K_scaled, F399.
    transitivity (8984681256604140 * 2 ^ 77 * U * ((i + 1) * C)).
    - apply Z.mul_le_mono_nonneg_l; lia.
    - unfold C.
      replace (8984681256604140 * 2 ^ 77 * U * ((i + 1) * (2 ^ 118 * U)))
        with (8984681256604140 * (i + 1) * 2 ^ 67 * (2 ^ 128 * (U * U))) by ring.
      replace (Zpos mA * 2 ^ (eA + 128) * U * (2 ^ 128 * U))
        with (Zpos mA * 2 ^ (eA + 128) * (2 ^ 128 * (U * U))) by ring.
      apply Z.mul_le_mono_nonneg_r; [nia | exact CA]. }
  (* 1 - x *)
  rewrite of_int_1.
  destruct (sub_le one x mB eB N1 Hx BB) as [T2 T2le].
  { rewrite fval_one. lia. }
  { rewrite fval_one, (val_scaled _ eB) by lia.
    transitivity ((1024 - i) * 2 ^ 118 * U); [unfold C in *; lia|].
    apply Z.mul_le_mono_nonneg_r; [lia | exact CB]. }
  (* the product *)
  change (fval one) with (val (Zpos 4503599627370496) (-52)).
  apply mul_le; auto.
  pose proof (nnf_fval_nonneg _ T1). pose proof (nnf_fval_nonneg _ T2).
  rewrite (val_scaled _ eA) in T1le by lia.
  rewrite (val_scaled _ eB) in T2le by lia.
  rewrite (val_scaled _ (-52)) by lia. rewrite pow2K_scaled.
  change (Zpos 4503599627370496 * 2 ^ (-52 + 128)) with (2 ^ 128).
  transitivity (Zpos mA * 2 ^ (eA + 128) * U * (Zpos mB * 2 ^ (eB + 128) * U)).
  - apply Z.mul_le_mono_nonneg; lia.
  - replace (Zpos mA * 2 ^ (eA + 128) * U * (Zpos mB * 2 ^ (eB + 128) * U))
      with (Zpos mA * 2 ^ (eA + 128) * (Zpos mB * 2 ^ (eB + 128)) * (U * U)) by ring.
    replace (2 ^ 128 * U * (2 ^ 128 * U)) with (2 ^ 256 * (U * U)) by ring.
    apply Z.mul_le_mono_nonneg_r; [nia | exact CAB].
Qed.

(** ** The emitted value and the seed *)

Lemma emit_value_nnf x y :
  unit_float x -> unit_float y ->
  nnf (mul (div (add x y) (of_int 2)) (of_int 256)).
Proof.
  intros [Hx Hx1] [Hy Hy1]. rewrite fval_one in Hx1, Hy1.
  pose proof U_pos as HU.
  rewrite of_int_2, of_int_256. unfold two, c256.
  assert (V2 : val (Zpos 4503599627370496) (-51) = 2 ^ 129 * U)
    by (rewrite val_scaled by lia; reflexivity).
  assert (V256 : val (Zpos 4503599627370496) (-44) = 2 ^ 136 * U)
    by (rewrite val_scaled by lia; reflexivity).
  assert (V512 : val (Zpos 4503599627370496) (-43) = 2 ^ 137 * U)
    by (rewrite val_scaled by lia; reflexivity).
  destruct (add_le x y 4503599627370496 (-51) Hx Hy eq_refl) as [A1 A2].
  { rewrite V2. lia. }
  destruct (div_le (add x y) 4503599627370496 (-51) 4503599627370496 (-51)
              A1 eq_refl eq_refl) as [D1 D2].
  { rewrite V2 in *. rewrite pow2K_scaled.
    pose proof (nnf_fval_nonneg _ A1).
    apply Z.le_lt_trans with (2 ^ 129 * U * (2 ^ 128 * U)).
    - apply Z.mul_le_mono_nonneg_r; lia.
    - apply Z.mul_lt_mono_pos_l; lia. }
  destruct (mul_le (div (add x y) (S754_finite false 4503599627370496 (-51)))
              (S754_finite false 4503599627370496 (-44))
              4503599627370496 (-43) D1 (nnf_finite 4503599627370496 (-44) eq_refl) eq_refl) as [M1 _].
  { cbn [fval]. rewrite V2 in D2. rewrite V256, V512, pow2K_scaled.
    pose proof (nnf_fval_nonneg _ D1).
    transitivity (2 ^ 129 * U * (2 ^ 136 * U)).
    - apply Z.mul_le_mono_nonneg_r; lia.
    - apply Z.eq_le_incl.
      replace (2 ^ 129 * U * (2 ^ 136 * U)) with (2 ^ 129 * 2 ^ 136 * (U * U)) by ring.
      replace (2 ^ 137 * U * (2 ^ 128 * U)) with (2 ^ 137 * 2 ^ 128 * (U * U)) by ring.
      f_equal. }
  exact M1.
Qed.

Lemma to_int_nnf r :
  nnf r -> exists v, to_int r = Ok v /\ 0 <= v /\ floor r = Some v.
Proof.
  intros [->|(m & e & -> & _)].
  - exists 0. repeat split. lia.
  - cbn [to_int floor]. eexists. split; [reflexivity|]. split; [|reflexivity].
    destruct (0 <=? e) eqn:He.
    + apply Z.shiftl_nonneg. lia.
    + apply Z.shiftr_nonneg. lia.
Qed.

Lemma lxor_bound a b n :
  0 < n -> 0 <= a < 2 ^ n -> 0 <= b < 2 ^ n -> 0 <= Z.lxor a b < 2 ^ n.
Proof.
  intros Hn Ha Hb.
  assert (H0 : 0 <= Z.lxor a b) by (apply Z.lxor_nonneg; lia).
  split; [exact H0|].
  destruct (Z.eq_dec (Z.lxor a b) 0) as [->|Hne]; [apply Z.pow_pos_nonneg; lia|].
  apply Z.log2_lt_pow2; [lia|].
  pose proof (Z.log2_lxor a b ltac:(lia) ltac:(lia)) as Hl.
  assert (La : Z.log2 a < n).
  { destruct (Z.eq_dec a 0) as [->|]; [cbn; lia|]. apply Z.log2_lt_pow2; lia. }
  assert (Lb : Z.log2 b < n).
  { destruct (Z.eq_dec b 0) as [->|]; [cbn; lia|]. apply Z.log2_lt_pow2; lia. }
  lia.
Qed.

Lemma seed_step_range acc ch : 0 <= seed_step acc ch < 2 ^ 32.
Proof.
  unfold seed_step.
  set (a := Z.land (Z.shiftl acc 5 - acc + ord ch) 0xFFFFFFFF).
  assert (Ha : 0 <= a < 2 ^ 32).
  { unfold a. change 0xFFFFFFFF with (Z.ones 32). rewrite Z.land_ones by lia.
    apply Z.mod_pos_bound. lia. }
  apply lxor_bound; [lia | exact Ha |].
  rewrite Z.shiftr_div_pow2 by lia. split.
  - apply Z.div_pos; lia.
  - apply Z.div_lt_upper_bound; lia.
Qed.

Lemma seed_acc_range password : 0 <= seed_acc password < 2 ^ 32.
Proof.
  unfold seed_acc.
  assert (H : forall l a, 0 <= a < 2 ^ 32 -> 0 <= fold_left seed_step l a < 2 ^ 32).
  { induction l as [|c l IH]; intros a Ha; cbn [fold_left]; [exact Ha|].
    apply IH, seed_step_range. }
  apply H. lia.
Qed.

Lemma of_int_FFFFFFFF : of_int 0xFFFFFFFF = cFFFFFFFF.
Proof. reflexivity. Qed.

(** The quotient [abs(acc) / 0xFFFFFFFF] is a canonical non-negative float. *)
Lemma raw_seed_nnf acc :
  0 <= acc < 2 ^ 32 -> nnf (int_truediv (Z.abs acc) 0xFFFFFFFF).
Proof.
  intros Hacc. unfold int_truediv. rewrite of_int_FFFFFFFF.
  pose proof U_pos as HU.
  assert (V32 : val (Zpos 4503599627370496) (-20) = 2 ^ 160 * U)
    by (rewrite val_scaled by lia; reflexivity).
  assert (VF : val (Zpos 9007199252643840) (-21) = 4294967295 * 2 ^ 128 * U)
    by (rewrite val_scaled by lia; reflexivity).
  assert (V2 : val (Zpos 4503599627370496) (-51) = 2 ^ 129 * U)
    by (rewrite val_scaled by lia; reflexivity).
  destruct (binary_normalize_le (Z.abs acc) 0 4503599627370496 (-20)) as [N1 N2];
    [lia | klia | reflexivity | | ].
  { rewrite V32, val_scaled by lia. change (2 ^ (0 + 128)) with (2 ^ 128).
    rewrite Z.abs_eq by lia.
    replace (2 ^ 160 * U) with (2 ^ 32 * 2 ^ 128 * U) by reflexivity.
    apply Z.mul_le_mono_nonneg_r; [lia|]. apply Z.mul_le_mono_nonneg_r; lia. }
  fold (of_int (Z.abs acc)) in N1, N2.
  destruct (div_le (of_int (Z.abs acc)) 9007199252643840 (-21) 4503599627370496 (-51)
              N1 eq_refl eq_refl) as [D1 _]; [|exact D1].
  rewrite V32 in N2. rewrite VF, V2, pow2K_scaled.
  pose proof (nnf_fval_nonneg _ N1).
  apply Z.le_lt_trans with (2 ^ 160 * U * (2 ^ 128 * U)).
  - apply Z.mul_le_mono_nonneg_r; lia.
  - replace (2 ^ 160 * U * (2 ^ 128 * U)) with (2 ^ 288 * (U * U)) by ring.
    replace (4294967295 * 2 ^ 128 * U * (2 ^ 129 * U))
      with (4294967295 * 2 ^ 257 * (U * U)) by ring.
    apply Z.mul_lt_mono_pos_r; [nia | lia].
Qed.

Lemma generate_entropy_seed_cases password :
  let s := generate_entropy_seed password in
  s = c0_0001 \/ s = c0_9999 \/
  (s = int_truediv (Z.abs (seed_acc password)) 0xFFFFFFFF /\
   ltb c0_0001 s = true /\ ltb s c0_9999 = true).
Proof.
  cbv zeta. unfold generate_entropy_seed, py_max, py_min.
  set (q := int_truediv (Z.abs (seed_acc password)) 0xFFFFFFFF).
  destruct (ltb q c0_9999) eqn:H1.
  - destruct (ltb c0_0001 q) eqn:H2; auto.
  - destruct (ltb c0_0001 c0_9999); auto.
Qed.

Lemma generate_entropy_seed_unit password :
  unit_float (generate_entropy_seed password).
Proof.
  assert (N1 : nnf c0_0001) by (apply nnf_finite; reflexivity).
  assert (N2 : nnf c0_9999) by (apply nnf_finite; reflexivity).
  assert (N3 : nnf one) by (apply nnf_finite; reflexivity).
  assert (L1 : fval c0_0001 <= fval one) by (apply leb_val; auto).
  assert (L2 : fval c0_9999 <= fval one) by (apply leb_val; auto).
  destruct (generate_entropy_seed_cases password) as [->|[->|(E & _ & Hlt)]].
  - split; assumption.
  - split; assumption.
  - assert (Ns : nnf (generate_entropy_seed password)).
    { rewrite E. apply raw_seed_nnf, seed_acc_range. }
    split; [exact Ns|].
    apply (ltb_val _ _ Ns N2) in Hlt. lia.
Qed.

(** * The entropy stream never raises on a seed of the unit interval *)

Lemma iter_warm_up k x y :
  Nat.iter k warm_up (x, y) = (Nat.iter k logistic_map x, Nat.iter k tent_map y).
Proof.
  induction k as [|k IH]; [reflexivity|].
  cbn [Nat.iter nat_rect]. unfold Nat.iter in IH. rewrite IH. reflexivity.
Qed.

Lemma iter_logistic_unit k x :
  unit_float x -> unit_float (Nat.iter k logistic_map x).
Proof.
  intros Hx. induction k as [|k IH]; [exact Hx|].
  cbn [Nat.iter nat_rect]. apply logistic_map_unit. exact IH.
Qed.

Lemma iter_tent_unit k y :
  unit_float y -> unit_float (Nat.iter k tent_map y).
Proof.
  intros Hy. induction k as [|k IH]; [exact Hy|].
  cbn [Nat.iter nat_rect]. apply tent_map_unit. exact IH.
Qed.

Lemma valid_seed_unit seed : valid_seed seed -> unit_float seed.
Proof.
  intros (Hv & Hlo & Hhi).
  assert (N2 : nnf c0_9999) by (apply nnf_finite; reflexivity).
  assert (N3 : nnf one) by (apply nnf_finite; reflexivity).
  assert (L2 : fval c0_9999 <= fval one) by (apply leb_val; auto).
  destruct seed as [s|[|]| |[|] m e]; try discriminate Hlo; try discriminate Hhi.
  assert (Ns : nnf (S754_finite false m e)) by (apply nnf_finite; exact Hv).
  split; [exact Ns|]. apply (leb_val _ _ Ns N2) in Hhi. lia.
Qed.

Lemma emit_total x y :
  unit_float x -> unit_float y ->
  exists b, emit x y = Ok b /\ spec_byte x y = Some b.
Proof.
  intros Hx Hy. unfold emit, spec_byte.
  destruct (to_int_nnf _ (emit_value_nnf x y Hx Hy)) as (v & -> & _ & ->).
  eexists. split; reflexivity.
Qed.

Lemma nexts_loop k : forall x y,
  unit_float x -> unit_float y ->
  exists ks,
    nexts k (GenLoop x y k)
    = Ok (ks, GenLoop (Nat.iter k logistic_map x) (Nat.iter k tent_map y) 0) /\
    List.length ks = k /\
    List.map Some ks
    = List.map (fun j => spec_byte (Nat.iter (S j) logistic_map x)
                                   (Nat.iter (S j) tent_map y)) (seq 0 k).
Proof.
  induction k as [|k IH]; intros x y Hx Hy.
  - exists []. repeat split.
  - pose proof (logistic_map_unit x Hx) as Hx'.
    pose proof (tent_map_unit y Hy) as Hy'.
    destruct (emit_total _ _ Hx' Hy') as (b & Eb & Sb).
    destruct (IH _ _ Hx' Hy') as (ks & En & Hl & Hs).
    exists (b :: ks). split; [|split].
    + cbn [nexts]. unfold next_or. cbn [gen_next gen_loop]. rewrite Eb.
      cbn [bind snd fst]. rewrite En. cbn [bind snd fst].
      rewrite <- !Nat.iter_succ_r. reflexivity.
    + cbn [List.length]. now rewrite Hl.
    + cbn [seq List.map]. rewrite <- seq_shift, map_map.
      f_equal; [symmetry; exact Sb|].
      rewrite Hs. apply map_ext. intros j. now rewrite <- !Nat.iter_succ_r.
Qed.

Lemma gen_next_new seed n :
  gen_next (GenNew seed n)
  = gen_next (GenLoop (Nat.iter 100 logistic_map seed)
                      (Nat.iter 100 tent_map (tent_map seed)) (Z.to_nat n)).
Proof. cbn [gen_next]. rewrite iter_warm_up. reflexivity. Qed.

Lemma nexts_first k g1 g2 :
  gen_next g1 = gen_next g2 -> nexts (S k) g1 = nexts (S k) g2.
Proof. intros H. cbn [nexts]. unfold next_or. now rewrite H. Qed.

(** Every requested byte is produced, and then the stream is exhausted. *)
Lemma stream_total seed n :
  unit_float seed ->
  exists ks g',
    nexts (Z.to_nat n) (entropy_stream seed n) = Ok (ks, g') /\
    List.length ks = Z.to_nat n /\
    gen_next g' = Ok None /\
    List.map Some ks = spec_keystream seed (Z.to_nat n).
Proof.
  intros Hs. unfold entropy_stream.
  pose proof (iter_logistic_unit 100 seed Hs) as Hx.
  pose proof (iter_tent_unit 100 (tent_map seed) (tent_map_unit seed Hs)) as Hy.
  destruct (Z.to_nat n) as [|k] eqn:Hk.
  - exists [], (GenNew seed n). repeat split.
    rewrite gen_next_new, Hk. reflexivity.
  - destruct (nexts_loop (S k) _ _ Hx Hy) as (ks & En & Hl & Hsp).
    exists ks. eexists. split; [|split; [|split]].
    + rewrite (nexts_first k _ _ (gen_next_new seed n)), Hk. exact En.
    + exact Hl.
    + reflexivity.
    + rewrite Hsp. unfold spec_keystream. apply map_ext. intros j.
      unfold spec_x, spec_y.
      change spec_logistic with logistic_map. change spec_tent with tent_map.
      replace (100 + S j)%nat with (S j + 100)%nat by lia.
      now rewrite !Nat.iter_add.
Qed.

Lemma take_next_nexts stop n : forall g ks g',
  nexts n g = Ok (ks, g') -> take_next stop n g = Ok ks.
Proof.
  induction n as [|n IH]; intros g ks g' H; cbn [nexts take_next] in *.
  - now inversion H.
  - unfold next_or in *. destruct (gen_next g) as [[[b g1]|]|e]; cbn [bind] in *;
      try discriminate.
    cbn [snd fst] in *.
    destruct (nexts n g1) as [[ks1 g1']|e] eqn:E; cbn [bind] in *; try discriminate.
    rewrite (IH _ _ _ E). cbn [bind fst snd] in *. now inversion H.
Qed.

Lemma xor_zip_nexts n : forall g ks g' data,
  nexts n g = Ok (ks, g') ->
  (List.length data <= n)%nat \/ gen_next g' = Ok None ->
  xor_zip data g = Ok (xor_bytes data ks).
Proof.
  induction n as [|n IH]; intros g ks g' data H Hcase; cbn [nexts] in H.
  - inversion H; subst. destruct data as [|d rest]; [reflexivity|].
    destruct Hcase as [Hc|Hc]; [cbn in Hc; lia|].
    cbn [xor_zip]. rewrite Hc. reflexivity.
  - unfold next_or in H.
    destruct (gen_next g) as [[[b g1]|]|e] eqn:Eg; cbn [bind] in H; try discriminate.
    cbn [snd fst] in H.
    destruct (nexts n g1) as [[ks1 g1']|e] eqn:E; cbn [bind] in H; try discriminate.
    cbn [fst snd] in H. inversion H; subst.
    destruct data as [|d rest]; [reflexivity|].
    cbn [xor_zip]. rewrite Eg. cbn [bind].
    rewrite (IH g1 ks1 g' rest E).
    + reflexivity.
    + destruct Hcase as [Hc|Hc]; [left; cbn in Hc; lia | right; exact Hc].
Qed.

(** * Bytes, the length prefix and the hash *)

Lemma byte_val_range b : 0 <= byte_val b < 256.
Proof.
  unfold byte_val. pose proof (Byte.to_N_bounded b). lia.
Qed.

Lemma byte_val_of_Z z : 0 <= z < 256 -> byte_val (byte_of_Z z) = z.
Proof.
  intros Hz. unfold byte_val, byte_of_Z.
  destruct (Byte.of_N (Z.to_N z)) as [b|] eqn:E.
  - apply Byte.to_of_N in E. rewrite E. lia.
  - apply Byte.of_N_None_iff in E. lia.
Qed.

Lemma byte_of_Z_val b : byte_of_Z (byte_val b) = b.
Proof.
  unfold byte_val, byte_of_Z. rewrite N2Z.id, Byte.of_to_N. reflexivity.
Qed.

Lemma byte_xor_involutive b k : byte_xor (byte_xor b k) k = b.
Proof.
  unfold byte_xor.
  pose proof (byte_val_range b) as Hb. pose proof (byte_val_range k) as Hk.
  rewrite byte_val_of_Z by (apply (lxor_bound _ _ 8); lia).
  rewrite Z.lxor_assoc, Z.lxor_nilpotent, Z.lxor_0_r. apply byte_of_Z_val.
Qed.

Lemma xor_bytes_length a b :
  List.length (xor_bytes a b) = Nat.min (List.length a) (List.length b).
Proof. unfold xor_bytes. now rewrite length_map, length_combine. Qed.

Lemma xor_bytes_involutive d : forall ks,
  List.length ks = List.length d -> xor_bytes (xor_bytes d ks) ks = d.
Proof.
  unfold xor_bytes. induction d as [|b d IH]; intros [|k ks] Hl;
    try discriminate Hl; [reflexivity|].
  cbn [combine List.map fst snd]. rewrite byte_xor_involutive. f_equal.
  apply IH. now inversion Hl.
Qed.

Lemma xor_bytes_firstn data ks :
  xor_bytes data ks = xor_bytes (firstn (List.length ks) data) ks.
Proof. unfold xor_bytes. now rewrite <- combine_firstn_r. Qed.

Lemma len_nonneg {A} (l : list A) : 0 <= len l.
Proof. unfold len. lia. Qed.

Lemma pack_be32_inv n prefix :
  pack_be32 n = Ok prefix ->
  0 <= n <= 0xFFFFFFFF /\ List.length prefix = 4%nat /\ unpack_be32 prefix = Ok n.
Proof.
  unfold pack_be32. destruct ((0 <=? n) && (n <=? 0xFFFFFFFF)) eqn:E; [|discriminate].
  apply andb_true_iff in E. destruct E as [E1 E2].
  apply Z.leb_le in E1, E2. intros H. inversion H; subst. clear H.
  split; [lia|]. split; [reflexivity|].
  cbn [unpack_be32]. f_equal.
  rewrite !byte_val_of_Z by (apply Z.mod_pos_bound; lia).
  rewrite !Z.shiftr_div_pow2, !Z.shiftl_mul_pow2 by lia.
  change (2 ^ 24) with 16777216. change (2 ^ 16) with 65536. change (2 ^ 8) with 256.
  pose proof (Z.div_mod n 256 ltac:(lia)).
  pose proof (Z.div_mod (n / 256) 256 ltac:(lia)).
  pose proof (Z.div_mod (n / 256 / 256) 256 ltac:(lia)).
  rewrite !Z.div_div in * by lia.
  change (256 * 256) with 65536 in *. change (65536 * 256) with 16777216 in *.
  assert (n / 16777216 < 256) by (apply Z.div_lt_upper_bound; lia).
  assert (0 <= n / 16777216) by (apply Z.div_pos; lia).
  rewrite (Z.mod_small (n / 16777216) 256) by lia.
  lia.
Qed.

Lemma hash_kick_total sp :
  0 <= sp < 256 ->
  exists k, to_int (mul (logistic_map (int_truediv sp 256)) (of_int 127)) = Ok k.
Proof.
  intros Hsp.
  assert (H : forallb (fun v =>
                match to_int (mul (logistic_map (int_truediv v 256)) (of_int 127)) with
                | Ok _ => true
                | Raise _ => false
                end) (List.map Z.of_nat (seq 0 256)) = true)
    by (vm_compute; reflexivity).
  rewrite forallb_forall in H.
  specialize (H sp). destruct (to_int _) as [k|e].
  - now exists k.
  - discriminate H. apply in_map_iff. exists (Z.to_nat sp). split; [lia|].
    apply in_seq. lia.
Qed.

Lemma set_nth_range state i v :
  Forall byte_range state -> byte_range v -> Forall byte_range (set_nth state i v).
Proof.
  intros Hs Hv. revert i. induction Hs as [|h t Hh Ht IH]; intros [|i]; cbn [set_nth];
    constructor; auto.
Qed.

Lemma nth_range state p : Forall byte_range state -> byte_range (nth p state 0).
Proof.
  intros Hs. revert p. induction Hs as [|h t Hh Ht IH]; intros [|p]; cbn [nth];
    auto; unfold byte_range; lia.
Qed.

Lemma hash_step_total state ib :
  Forall byte_range state ->
  exists state', hash_step (Ok state) ib = Ok state' /\ Forall byte_range state'.
Proof.
  intros Hs. unfold hash_step. cbn [bind].
  set (p := (fst ib mod 32)%nat).
  set (st1 := set_nth state p (Z.lxor (nth p state 0) (byte_val (snd ib)))).
  assert (H1 : Forall byte_range st1).
  { apply set_nth_range; [exact Hs|].
    apply (lxor_bound _ _ 8); [lia | apply nth_range, Hs | apply byte_val_range]. }
  destruct (hash_kick_total (nth p st1 0) (nth_range _ _ H1)) as (k & ->).
  cbn [bind]. eexists. split; [reflexivity|].
  apply set_nth_range; [exact H1|].
  unfold byte_range. change 0xFF with (Z.ones 8). rewrite Z.land_ones by lia.
  apply Z.mod_pos_bound. lia.
Qed.

Lemma fold_hash_total l : forall state,
  Forall byte_range state ->
  exists state', fold_left hash_step l (Ok state) = Ok state'.
Proof.
  induction l as [|ib l IH]; intros state Hs; cbn [fold_left].
  - now exists state.
  - destruct (hash_step_total state ib Hs) as (st' & -> & Hs'). now apply IH.
Qed.

(** * Totality of the engine's functions *)

Lemma password_stream password n :
  exists ks g',
    nexts (Z.to_nat n) (entropy_stream (generate_entropy_seed password) n)
    = Ok (ks, g') /\
    List.length ks = Z.to_nat n /\ gen_next g' = Ok None /\
    List.map Some ks = spec_keystream (generate_entropy_seed password) (Z.to_nat n).
Proof. apply stream_total, generate_entropy_seed_unit. Qed.

Lemma fingerprint_total password :
  exists ks,
    generate_entropy_fingerprint password = Ok (hex ks) /\
    List.length ks = 32%nat /\
    List.map Some ks = spec_keystream (generate_entropy_seed password) 32.
Proof.
  destruct (password_stream password 32) as (ks & g' & En & Hl & _ & Hs).
  exists ks. split; [|split; assumption].
  unfold generate_entropy_fingerprint.
  change (Z.to_nat 32) with 32%nat in En.
  now rewrite (take_next_nexts RuntimeError _ _ _ _ En).
Qed.

Lemma quantum_hash_total data password :
  exists h, quantum_hash data password = Ok h.
Proof.
  destruct (password_stream password 32) as (ks & g' & En & _).
  unfold quantum_hash. change (Z.to_nat 32) with 32%nat in En.
  rewrite (take_next_nexts StopIteration _ _ _ _ En). cbn [bind].
  destruct (fold_hash_total (enumerate data) (List.map byte_val ks)) as (st & ->).
  - apply Forall_forall. intros v Hv. apply in_map_iff in Hv.
    destruct Hv as (b & <- & _). apply byte_val_range.
  - cbn [bind]. eexists. reflexivity.
Qed.

(** * Encrypt and decrypt in closed form *)

Lemma str_eqb_refl a : str_eqb a a = true.
Proof. unfold str_eqb. destruct (list_eq_dec N.eq_dec a a); congruence. Qed.

Lemma str_eqb_neq a b : a <> b -> str_eqb a b = false.
Proof. unfold str_eqb. destruct (list_eq_dec N.eq_dec a b); congruence. Qed.

Lemma to_nat_len {A} (l : list A) : Z.to_nat (len l) = List.length l.
Proof. unfold len. apply Nat2Z.id. Qed.

Lemma quantum_encrypt_inv data password blob fp chk :
  quantum_encrypt data password = Ok (blob, fp, chk) ->
  exists prefix ks,
    generate_entropy_fingerprint password = Ok fp /\
    pack_be32 (len data) = Ok prefix /\
    List.length ks = List.length data /\
    xor_zip data (entropy_stream (generate_entropy_seed password) (len data))
    = Ok (xor_bytes data ks) /\
    (forall buf, xor_zip buf (entropy_stream (generate_entropy_seed password) (len data))
                 = Ok (xor_bytes buf ks)) /\
    blob = prefix ++ xor_bytes data ks /\
    quantum_hash blob password = Ok chk.
Proof.
  unfold quantum_encrypt.
  destruct (generate_entropy_fingerprint password) as [f|e]; [|discriminate].
  cbn [bind].
  destruct (pack_be32 (len data)) as [prefix|e]; [|discriminate]. cbn [bind].
  destruct (password_stream password (len data)) as (ks & g' & En & Hl & Hend & _).
  rewrite to_nat_len in En, Hl.
  assert (Hz : forall buf,
             xor_zip buf (entropy_stream (generate_entropy_seed password) (len data))
             = Ok (xor_bytes buf ks)).
  { intros buf. apply (xor_zip_nexts _ _ _ _ _ En). now right. }
  rewrite Hz. cbn [bind].
  destruct (quantum_hash (prefix ++ xor_bytes data ks) password) as [h|e] eqn:Eh;
    [|discriminate].
  cbn [bind]. intros H. inversion H; subst.
  exists prefix, ks. repeat split; auto.
Qed.

Lemma quantum_encrypt_total data password :
  len data <= 0xFFFFFFFF ->
  exists blob fp chk, quantum_encrypt data password = Ok (blob, fp, chk).
Proof.
  intros Hlen. unfold quantum_encrypt.
  destruct (fingerprint_total password) as (ks32 & -> & _). cbn [bind].
  unfold pack_be32. pose proof (len_nonneg data).
  replace ((0 <=? len data) && (len data <=? 0xFFFFFFFF)) with true
    by (symmetry; apply andb_true_iff; split; apply Z.leb_le; lia).
  cbn [bind].
  destruct (password_stream password (len data)) as (ks & g' & En & Hl & Hend & _).
  rewrite (xor_zip_nexts _ _ _ _ data En) by now right. cbn [bind].
  match goal with |- context [quantum_hash ?b ?p] =>
    destruct (quantum_hash_total b p) as (h & ->) end.
  cbn [bind]. eexists _, _, _. reflexivity.
Qed.

Lemma quantum_decrypt_checked encrypted password fp chk original_len :
  generate_entropy_fingerprint password = Ok fp ->
  quantum_hash encrypted password = Ok chk ->
  unpack_be32 (firstn 4 encrypted) = Ok original_len ->
  exists ks,
    List.length ks = Z.to_nat original_len /\
    List.map Some ks
    = spec_keystream (generate_entropy_seed password) (Z.to_nat original_len) /\
    quantum_decrypt encrypted password fp chk
    = if len (xor_bytes (skipn 4 encrypted) ks) =? original_len
      then Ok (Some (xor_bytes (skipn 4 encrypted) ks)) else Ok None.
Proof.
  intros Hf Hh Hu. unfold quantum_decrypt.
  rewrite Hf. cbn [bind]. rewrite str_eqb_refl. cbn [negb].
  rewrite Hh. cbn [bind]. rewrite str_eqb_refl. cbn [negb].
  rewrite Hu. cbn [bind].
  destruct (password_stream password original_len) as (ks & g' & En & Hl & Hend & Hs).
  exists ks. split; [exact Hl|]. split; [exact Hs|].
  rewrite (xor_zip_nexts _ _ _ _ (skipn 4 encrypted) En) by now right.
  cbn [bind]. destruct (len _ =? original_len); reflexivity.
Qed.

Lemma quantum_decrypt_mismatch encrypted password fp chk :
  generate_entropy_fingerprint password <> Ok fp \/
  quantum_hash encrypted password <> Ok chk ->
  quantum_decrypt encrypted password fp chk = Ok None.
Proof.
  intros H. unfold quantum_decrypt.
  destruct (fingerprint_total password) as (ks & Ef & _). rewrite Ef in *.
  cbn [bind].
  destruct (list_eq_dec N.eq_dec (hex ks) fp) as [<-|Hne].
  - rewrite str_eqb_refl. cbn [negb].
    destruct (quantum_hash_total encrypted password) as (h & Eh). rewrite Eh in *.
    cbn [bind]. destruct H as [H|H]; [congruence|].
    rewrite str_eqb_neq by congruence. reflexivity.
  - rewrite (str_eqb_neq _ _ Hne). reflexivity.
Qed.

(** * Concrete values *)

(** The float literals of the source are the correctly rounded decimals. *)
Example literals_correctly_rounded :
  c3_99 = int_truediv 399 100 /\ c1_99 = int_truediv 199 100 /\
  c0_5 = int_truediv 1 2 /\
  c0_0001 = int_truediv 1 10000 /\ c0_9999 = int_truediv 9999 10000.
Proof. repeat split; vm_compute; reflexivity. Qed.

Example seed_acc_Aa_BB :
  seed_acc (py_str "Aa") = 2112 /\ seed_acc (py_str "BB") = 2112.
Proof. split; reflexivity. Qed.

Example seed_correcthorse :
  generate_entropy_seed correcthorse = S754_finite false 5472447764853034 (-53).
Proof. vm_compute. reflexivity. Qed.

Example fingerprint_correcthorse :
  generate_entropy_fingerprint correcthorse
  = Ok (py_str "7d4eb4996e799ac69187ef204490468a162f68a6c47d51b9985b7d4dac7074f7").
Proof. vm_compute. reflexivity. Qed.

Example hello_blob_prefix :
  firstn 4 hello_blob = [x00; x00; x00; x0b] /\ List.length hello_blob = 15%nat.
Proof. split; reflexivity. Qed.

(** Outside the seed range the generator behaves differently: from the
    negative subnormal seed [-2^-1074] both trajectories stay negative and
    [int()] truncates the emitted value to 0 where [floor] gives -1, hence
    255 after the mask; from the seed 2.0 the logistic trajectory diverges
    to an infinity and [int()] raises. *)
Example out_of_range_seeds :
  (exists g, nexts 1 (entropy_stream (S754_finite true 1 (-1074)) 1) = Ok ([x00], g)) /\
  spec_keystream (S754_finite true 1 (-1074)) 1 = [Some xff] /\
  nexts 1 (entropy_stream (of_int 2) 1) = Raise OverflowError.
Proof.
  split; [eexists; vm_compute; reflexivity|].
  split; vm_compute; reflexivity.
Qed.

(** * The properties of the specification *)

Lemma firstn_prefix (prefix body : bytes) :
  List.length prefix = 4%nat -> firstn 4 (prefix ++ body) = prefix.
Proof.
  intros H. rewrite firstn_app.
  replace (4 - List.length prefix)%nat with 0%nat by lia.
  rewrite firstn_O, app_nil_r. apply firstn_all2. lia.
Qed.

Lemma skipn_prefix (prefix body : bytes) :
  List.length prefix = 4%nat -> skipn 4 (prefix ++ body) = body.
Proof.
  intros H. rewrite skipn_app.
  replace (4 - List.length prefix)%nat with 0%nat by lia.
  rewrite skipn_O, skipn_all2 by lia. reflexivity.
Qed.

Lemma len_app {A} (a b : list A) : len (a ++ b) = len a + len b.
Proof. unfold len. rewrite length_app. lia. Qed.

Lemma len_xor_bytes a b :
  List.length b = List.length a -> len (xor_bytes a b) = len a.
Proof. intros H. unfold len. rewrite xor_bytes_length, H. lia. Qed.

Lemma fingerprint_seed p1 p2 :
  generate_entropy_seed p2 = generate_entropy_seed p1 ->
  generate_entropy_fingerprint p2 = generate_entropy_fingerprint p1.
Proof. unfold generate_entropy_fingerprint. now intros ->. Qed.

Lemma quantum_hash_seed data p1 p2 :
  generate_entropy_seed p2 = generate_entropy_seed p1 ->
  quantum_hash data p2 = quantum_hash data p1.
Proof. unfold quantum_hash. now intros ->. Qed.

(** What [quantum_encrypt] returns decrypts, under any password of the
    same seed, to the bytes that were encrypted: the password enters the
    engine through its seed only. *)
Lemma round_trip_same_seed data p1 p2 blob fp chk :
  quantum_encrypt data p1 = Ok (blob, fp, chk) ->
  generate_entropy_seed p2 = generate_entropy_seed p1 ->
  quantum_decrypt blob p2 fp chk = Ok (Some data).
Proof.
  intros Henc Hseed.
  destruct (quantum_encrypt_inv _ _ _ _ _ Henc)
    as (prefix & ks & Hf & Hp & Hl & _ & Hz & -> & Hh).
  destruct (pack_be32_inv _ _ Hp) as (_ & Hl4 & Hu).
  unfold quantum_decrypt.
  rewrite (fingerprint_seed _ _ Hseed), Hf. unfold bind at 1.
  rewrite str_eqb_refl. unfold negb at 1.
  rewrite (quantum_hash_seed _ _ _ Hseed), Hh. unfold bind at 1.
  rewrite str_eqb_refl. unfold negb at 1.
  rewrite (firstn_prefix _ _ Hl4), (skipn_prefix _ _ Hl4), Hu. unfold bind at 1.
  rewrite Hseed, Hz. unfold bind at 1.
  rewrite xor_bytes_involutive by exact Hl.
  rewrite Z.eqb_refl. reflexivity.
Qed.

(** C1. Round trip: whenever [quantum_encrypt] returns [(blob, fp, chk)]
    for a buffer and a password, [quantum_decrypt] on that blob with the
    same password, fingerprint and checksum succeeds and returns exactly
    the buffer that was encrypted (for every buffer, the non-empty ones
    included). *)
Theorem C1_round_trip data password blob fp chk :
  quantum_encrypt data password = Ok (blob, fp, chk) ->
  quantum_decrypt blob password fp chk = Ok (Some data).
Proof.
  intros H. apply (round_trip_same_seed data password password blob fp chk H).
  reflexivity.
Qed.

Lemma C1_round_trip_witness :
  quantum_encrypt hello_world correcthorse = Ok (hello_blob, hello_fp, hello_chk) /\
  quantum_decrypt hello_blob correcthorse hello_fp hello_chk = Ok (Some hello_world).
Proof.
  split; [vm_compute; reflexivity|].
  apply (C1_round_trip hello_world correcthorse hello_blob hello_fp hello_chk).
  vm_compute. reflexivity.
Defined.

(** C2 (as stated, refuted). On zero-length data the engine's
    [quantum_encrypt] does not reject: for the password "correcthorse" it
    returns a blob, the four zero bytes of the length prefix, and raises
    nothing. *)
Lemma C2_counterexample :
  (exists fp chk,
     quantum_encrypt [] correcthorse = Ok ([x00; x00; x00; x00], fp, chk)) /\
  ~ (exists e, quantum_encrypt [] correcthorse = Raise e).
Proof.
  split.
  - eexists _, _. vm_compute. reflexivity.
  - intros [e H]. vm_compute in H. discriminate H.
Qed.

(** C2 (amended). For every password, [quantum_encrypt] on zero-length
    data returns the blob made of the four zero bytes of the length prefix,
    with the password's fingerprint and the checksum of that blob; the
    empty input is rejected one layer up, by the service's [encrypt_file],
    which answers 400 before it calls the engine. *)
Theorem C2_empty_input password :
  (exists fp chk,
     generate_entropy_fingerprint password = Ok fp /\
     quantum_hash [x00; x00; x00; x00] password = Ok chk /\
     quantum_encrypt [] password = Ok ([x00; x00; x00; x00], fp, chk)) /\
  encrypt_file [] password
  = Http400 (if len password <? 8 then "Password must be at least 8 characters"
             else "Empty file").
Proof.
  split.
  - destruct (quantum_encrypt_total [] password) as (blob & fp & chk & H);
      [cbn; lia|].
    destruct (quantum_encrypt_inv _ _ _ _ _ H)
      as (prefix & ks & Hf & Hp & Hl & _ & _ & -> & Hh).
    destruct ks; [|discriminate Hl].
    inversion Hp; subst. cbn [xor_bytes combine List.map app] in *.
    exists fp, chk. repeat split; assumption.
  - unfold encrypt_file. pose proof (len_nonneg password).
    destruct (len password <? 8) eqn:E.
    + rewrite orb_true_r. reflexivity.
    + apply Z.ltb_ge in E.
      replace (len password =? 0) with false by (symmetry; apply Z.eqb_neq; lia).
      reflexivity.
Qed.

(** C3. Whenever [quantum_encrypt] returns a blob for a buffer, the blob
    is exactly 4 bytes longer than the buffer and its first 4 bytes,
    decoded as a big-endian unsigned 32-bit integer, are the buffer's
    length; so the 11-byte input "hello world" gives a 15-byte blob whose
    prefix decodes to 11. *)
Theorem C3_blob_layout data password blob fp chk :
  quantum_encrypt data password = Ok (blob, fp, chk) ->
  len blob = 4 + len data /\ unpack_be32 (firstn 4 blob) = Ok (len data).
Proof.
  intros H.
  destruct (quantum_encrypt_inv _ _ _ _ _ H)
    as (prefix & ks & _ & Hp & Hl & _ & _ & -> & _).
  destruct (pack_be32_inv _ _ Hp) as (_ & Hl4 & Hu).
  split.
  - rewrite len_app, len_xor_bytes by exact Hl. unfold len at 1. rewrite Hl4. lia.
  - now rewrite firstn_prefix.
Qed.

Lemma C3_hello_world_witness :
  quantum_encrypt hello_world correcthorse = Ok (hello_blob, hello_fp, hello_chk) /\
  len hello_world = 11 /\
  len hello_blob = 15 /\ unpack_be32 (firstn 4 hello_blob) = Ok 11.
Proof.
  split; [vm_compute; reflexivity|]. split; [reflexivity|].
  apply (C3_blob_layout hello_world correcthorse hello_blob hello_fp hello_chk).
  vm_compute. reflexivity.
Defined.

Lemma unpack_be32_four b3 b2 b1 b0 :
  unpack_be32 [b3; b2; b1; b0]
  = Ok (byte_val b3 * 16777216 + byte_val b2 * 65536 + byte_val b1 * 256 + byte_val b0).
Proof.
  unfold unpack_be32. rewrite !Z.shiftl_mul_pow2 by lia. reflexivity.
Qed.

Lemma unpack_be32_short b :
  List.length b <> 4%nat -> unpack_be32 b = Raise StructError.
Proof.
  destruct b as [|b3 [|b2 [|b1 [|b0 [|b4 t]]]]]; cbn; intros H;
    try reflexivity; congruence.
Qed.

(** C4 (as stated, refuted). On the 3-byte blob [01 02 03], with the
    fingerprint of "correcthorse" and the checksum the engine computes over
    these 3 bytes, [quantum_decrypt] does not return the failure signal
    [None]: unpacking the short prefix raises [struct.error]. *)
Lemma C4_counterexample :
  generate_entropy_fingerprint correcthorse = Ok hello_fp /\
  quantum_hash [x01; x02; x03] correcthorse
  = Ok (chk_of [x01; x02; x03] correcthorse) /\
  quantum_decrypt [x01; x02; x03] correcthorse hello_fp
                  (chk_of [x01; x02; x03] correcthorse)
  = Raise StructError /\
  quantum_decrypt [x01; x02; x03] correcthorse hello_fp
                  (chk_of [x01; x02; x03] correcthorse)
  <> Ok None.
Proof.
  repeat split; try (vm_compute; reflexivity).
  intros H. vm_compute in H. discriminate H.
Qed.

(** C4 (amended). For every blob shorter than 4 bytes, [quantum_decrypt]
    has no length test of its own and returns no plaintext: it returns the
    failure signal [None] when the fingerprint or the checksum does not
    match, and when both match the slice [encrypted[:4]] (which reads
    nothing out of bounds) is too short for [struct.unpack], which raises
    [struct.error].  The length requirement sits in the service, whose
    [decrypt_file] answers 400 on such a blob without calling the engine. *)
Theorem C4_short_blob encrypted password fp chk :
  len encrypted < 4 ->
  (generate_entropy_fingerprint password <> Ok fp \/
   quantum_hash encrypted password <> Ok chk ->
   quantum_decrypt encrypted password fp chk = Ok None) /\
  (generate_entropy_fingerprint password = Ok fp /\
   quantum_hash encrypted password = Ok chk ->
   quantum_decrypt encrypted password fp chk = Raise StructError) /\
  (forall decrypted, quantum_decrypt encrypted password fp chk <> Ok (Some decrypted)) /\
  decrypt_file encrypted password fp chk
  = Http400 (if len password <? 8 then "Invalid password"
             else "Encrypted data corrupted").
Proof.
  intros Hlen.
  assert (Hu : unpack_be32 (firstn 4 encrypted) = Raise StructError).
  { apply unpack_be32_short. rewrite length_firstn. unfold len in Hlen. lia. }
  assert (Hmatch : generate_entropy_fingerprint password = Ok fp /\
                   quantum_hash encrypted password = Ok chk ->
                   quantum_decrypt encrypted password fp chk = Raise StructError).
  { intros [Hf Hh]. unfold quantum_decrypt.
    rewrite Hf. unfold bind at 1. rewrite str_eqb_refl. unfold negb at 1.
    rewrite Hh. unfold bind at 1. rewrite str_eqb_refl. unfold negb at 1.
    rewrite Hu. reflexivity. }
  split; [apply quantum_decrypt_mismatch|]. split; [exact Hmatch|]. split.
  - intros decrypted Hd.
    destruct (fingerprint_total password) as (ks & Ef & _).
    destruct (quantum_hash_total encrypted password) as (h & Eh).
    destruct (list_eq_dec N.eq_dec (hex ks) fp) as [Efp|Nfp];
      [destruct (list_eq_dec N.eq_dec h chk) as [Echk|Nchk]|].
    + rewrite Hmatch in Hd by (split; congruence). discriminate Hd.
    + rewrite quantum_decrypt_mismatch in Hd by (right; congruence). discriminate Hd.
    + rewrite quantum_decrypt_mismatch in Hd by (left; congruence). discriminate Hd.
  - unfold decrypt_file. pose proof (len_nonneg password).
    pose proof (len_nonneg encrypted).
    destruct (len password <? 8) eqn:E.
    + rewrite orb_true_r. reflexivity.
    + apply Z.ltb_ge in E.
      replace (len password =? 0) with false by (symmetry; apply Z.eqb_neq; lia).
      replace (len encrypted <? 8) with true by (symmetry; apply Z.ltb_lt; lia).
      rewrite orb_true_r. reflexivity.
Qed.

Lemma C4_short_blob_witness :
  len [x01; x02; x03] < 4 /\
  (forall decrypted,
     quantum_decrypt [x01; x02; x03] correcthorse hello_fp hello_chk
     <> Ok (Some decrypted)) /\
  decrypt_file [x01; x02; x03] correcthorse hello_fp hello_chk
  = Http400 "Encrypted data corrupted".
Proof.
  split; [reflexivity|].
  pose proof (C4_short_blob [x01; x02; x03] correcthorse hello_fp hello_chk eq_refl)
    as (_ & _ & H3 & H4).
  split; [exact H3 | exact H4].
Defined.

(** C5 (as stated, refuted). "Aapassword" and "BBpassword" are distinct
    passwords with the same 32-bit accumulator, hence the same seed: what
    [quantum_encrypt] returns for "hello world" under the first decrypts
    under the second, to "hello world". *)
Lemma C5_counterexample :
  py_str "Aapassword" <> py_str "BBpassword" /\
  exists blob fp chk,
    quantum_encrypt hello_world (py_str "Aapassword") = Ok (blob, fp, chk) /\
    quantum_decrypt blob (py_str "BBpassword") fp chk = Ok (Some hello_world).
Proof.
  split; [discriminate|].
  destruct (quantum_encrypt_total hello_world (py_str "Aapassword"))
    as (blob & fp & chk & H); [vm_compute; discriminate|].
  exists blob, fp, chk. split; [exact H|].
  apply (round_trip_same_seed _ _ _ _ _ _ H). vm_compute. reflexivity.
Qed.

(** C5 (amended). Decrypting what [quantum_encrypt] returned under [p1]
    with a password [p2] whose fingerprint differs from that of [p1]
    returns the failure signal; a distinct password with the same seed as
    [p1] (the same 32-bit accumulator, or a quotient clamped to the same
    bound) has the same fingerprint and decrypts the blob. *)
Theorem C5_wrong_password data p1 p2 blob fp chk :
  quantum_encrypt data p1 = Ok (blob, fp, chk) ->
  (generate_entropy_fingerprint p2 <> generate_entropy_fingerprint p1 ->
   quantum_decrypt blob p2 fp chk = Ok None) /\
  (generate_entropy_seed p2 = generate_entropy_seed p1 ->
   quantum_decrypt blob p2 fp chk = Ok (Some data)).
Proof.
  intros H. split.
  - intros Hne. apply quantum_decrypt_mismatch. left.
    destruct (quantum_encrypt_inv _ _ _ _ _ H) as (_ & _ & Hf & _).
    congruence.
  - apply (round_trip_same_seed _ _ _ _ _ _ H).
Qed.

Lemma C5_wrong_password_witness :
  quantum_encrypt hello_world correcthorse = Ok (hello_blob, hello_fp, hello_chk) /\
  generate_entropy_fingerprint wrongpassword
  <> generate_entropy_fingerprint correcthorse /\
  quantum_decrypt hello_blob wrongpassword hello_fp hello_chk = Ok None.
Proof.
  assert (Hne : generate_entropy_fingerprint wrongpassword
                <> generate_entropy_fingerprint correcthorse).
  { intros E. vm_compute in E. discriminate E. }
  split; [vm_compute; reflexivity|]. split; [exact Hne|].
  apply (C5_wrong_password hello_world correcthorse wrongpassword
           hello_blob hello_fp hello_chk); [vm_compute; reflexivity | exact Hne].
Defined.

(** C6 (as stated, refuted). On the empty blob, with the fingerprint of
    "correcthorse" and the checksum the engine computes over the empty
    buffer, [quantum_decrypt] returns neither bytes nor the failure signal
    [None]: it raises [struct.error]. *)
Lemma C6_counterexample :
  quantum_decrypt [] correcthorse hello_fp (chk_of [] correcthorse)
  = Raise StructError /\
  quantum_decrypt [] correcthorse hello_fp (chk_of [] correcthorse) <> Ok None /\
  forall decrypted,
    quantum_decrypt [] correcthorse hello_fp (chk_of [] correcthorse)
    <> Ok (Some decrypted).
Proof.
  assert (E : quantum_decrypt [] correcthorse hello_fp (chk_of [] correcthorse)
              = Raise StructError) by (vm_compute; reflexivity).
  rewrite E. repeat split; intros; discriminate.
Qed.

(** C6 (amended). For every blob of at least 4 bytes, [quantum_decrypt]
    has exactly two outcomes.  It returns the recovered bytes only when
    the fingerprint matches, the checksum matches and the blob holds all
    [N] bytes its prefix announces, and then it returns exactly [N] bytes,
    [blob[4:]] XOR-ed with the keystream; in every other case (fingerprint
    mismatch, checksum mismatch, length mismatch) it returns the one
    failure value [None].  It never raises and never returns part of the
    plaintext. *)
Theorem C6_uniform_failure encrypted password fp chk :
  4 <= len encrypted ->
  exists N ks,
    unpack_be32 (firstn 4 encrypted) = Ok N /\
    List.map Some ks = spec_keystream (generate_entropy_seed password) (Z.to_nat N) /\
    ((quantum_decrypt encrypted password fp chk = Ok None /\
      (generate_entropy_fingerprint password <> Ok fp \/
       quantum_hash encrypted password <> Ok chk \/
       len (xor_bytes (skipn 4 encrypted) ks) <> N)) \/
     (quantum_decrypt encrypted password fp chk
      = Ok (Some (xor_bytes (skipn 4 encrypted) ks)) /\
      generate_entropy_fingerprint password = Ok fp /\
      quantum_hash encrypted password = Ok chk /\
      len (xor_bytes (skipn 4 encrypted) ks) = N)).
Proof.
  intros Hlen.
  assert (Hu : exists N, unpack_be32 (firstn 4 encrypted) = Ok N).
  { unfold len in Hlen.
    destruct encrypted as [|b3 [|b2 [|b1 [|b0 t]]]]; cbn [List.length] in Hlen; try lia.
    cbn [firstn unpack_be32]. eexists. reflexivity. }
  destruct Hu as (N & Hu).
  destruct (fingerprint_total password) as (ks32 & Ef & _).
  destruct (quantum_hash_total encrypted password) as (h & Eh).
  destruct (password_stream password N) as (ks0 & _ & _ & _ & _ & Hs0).
  destruct (list_eq_dec N.eq_dec (hex ks32) fp) as [Efp|Nfp].
  2:{ exists N, ks0. split; [exact Hu|]. split; [exact Hs0|].
      left. split; [apply quantum_decrypt_mismatch|]; left; congruence. }
  destruct (list_eq_dec N.eq_dec h chk) as [Echk|Nchk].
  2:{ exists N, ks0. split; [exact Hu|]. split; [exact Hs0|].
      left. split; [apply quantum_decrypt_mismatch|]; right; [|left]; congruence. }
  subst fp chk.
  destruct (quantum_decrypt_checked _ _ _ _ _ Ef Eh Hu) as (ks & _ & Hs & Ed).
  exists N, ks. split; [exact Hu|]. split; [exact Hs|].
  rewrite Ed.
  destruct (len (xor_bytes (skipn 4 encrypted) ks) =? N) eqn:E.
  - right. apply Z.eqb_eq in E. auto.
  - left. apply Z.eqb_neq in E. auto.
Qed.

Lemma C6_uniform_failure_witness :
  4 <= len hello_blob /\
  exists N ks,
    unpack_be32 (firstn 4 hello_blob) = Ok N /\
    List.map Some ks = spec_keystream (generate_entropy_seed wrongpassword) (Z.to_nat N) /\
    ((quantum_decrypt hello_blob wrongpassword hello_fp hello_chk = Ok None /\
      (generate_entropy_fingerprint wrongpassword <> Ok hello_fp \/
       quantum_hash hello_blob wrongpassword <> Ok hello_chk \/
       len (xor_bytes (skipn 4 hello_blob) ks) <> N)) \/
     (quantum_decrypt hello_blob wrongpassword hello_fp hello_chk
      = Ok (Some (xor_bytes (skipn 4 hello_blob) ks)) /\
      generate_entropy_fingerprint wrongpassword = Ok hello_fp /\
      quantum_hash hello_blob wrongpassword = Ok hello_chk /\
      len (xor_bytes (skipn 4 hello_blob) ks) = N)).
Proof.
  split; [vm_compute; discriminate|].
  apply (C6_uniform_failure hello_blob wrongpassword hello_fp hello_chk).
  vm_compute. discriminate.
Defined.

(** C7. For every seed of the data model (a binary64 value between the
    clamping constants 0.0001 and 0.9999, which is what
    [generate_entropy_seed] returns) and every requested length [n], the
    generator yields exactly [n] bytes and is then exhausted; nothing is
    raised; byte [j] is [floor(((x' + y') / 2) * 256) & 0xFF] for the
    logistic trajectory from [seed] and the tent trajectory from
    [tent(seed)] after [100 + (j + 1)] applications of both recurrences:
    100 warm-up applications without output, then one application per
    emitted byte. *)
Theorem C7_keystream seed length :
  valid_seed seed ->
  exists ks g',
    nexts (Z.to_nat length) (entropy_stream seed length) = Ok (ks, g') /\
    gen_next g' = Ok None /\
    List.length ks = Z.to_nat length /\
    List.map Some ks = spec_keystream seed (Z.to_nat length).
Proof.
  intros Hs.
  destruct (stream_total seed length (valid_seed_unit seed Hs))
    as (ks & g' & En & Hl & Hend & Hsp).
  exists ks, g'. auto.
Qed.

Lemma C7_keystream_witness :
  valid_seed c0_0001 /\
  exists ks g',
    nexts (Z.to_nat 3) (entropy_stream c0_0001 3) = Ok (ks, g') /\
    gen_next g' = Ok None /\
    List.length ks = Z.to_nat 3 /\
    List.map Some ks = spec_keystream c0_0001 (Z.to_nat 3).
Proof.
  assert (Hv : valid_seed c0_0001) by (repeat split; reflexivity).
  split; [exact Hv|]. apply (C7_keystream c0_0001 3 Hv).
Defined.

Lemma byte_val_xor a b : byte_val (byte_xor a b) = Z.lxor (byte_val a) (byte_val b).
Proof.
  unfold byte_xor. apply byte_val_of_Z.
  pose proof (byte_val_range a). pose proof (byte_val_range b).
  apply (lxor_bound _ _ 8); lia.
Qed.

(** Each byte [xor_bytes] returns is the bitwise exclusive or, on the
    values, of the two bytes at its position. *)
Lemma xor_bytes_nth_inv : forall (a b : bytes) i d,
  nth_error (xor_bytes a b) i = Some d ->
  exists x k,
    nth_error a i = Some x /\ nth_error b i = Some k /\
    byte_val d = Z.lxor (byte_val x) (byte_val k).
Proof.
  unfold xor_bytes.
  induction a as [|x a IH]; intros [|k b] i d H;
    try (destruct i; discriminate H).
  destruct i as [|i]; cbn [combine List.map nth_error fst snd] in *.
  - injection H as <-. exists x, k. repeat split. apply byte_val_xor.
  - apply (IH b i d H).
Qed.

Lemma Some_inj {A} (a b : A) : Some a = Some b -> a = b.
Proof. intros H. injection H as H. exact H. Qed.

Lemma spec_keystream_nth seed n i k ks :
  List.map Some ks = spec_keystream seed n ->
  nth_error ks i = Some k ->
  (i < n)%nat /\
  spec_byte (spec_x seed (100 + S i)) (spec_y seed (100 + S i)) = Some k.
Proof.
  intros Hs Hk.
  assert (Hl : List.length ks = n).
  { apply (f_equal (@List.length _)) in Hs.
    unfold spec_keystream in Hs. now rewrite !length_map, length_seq in Hs. }
  assert (Hi : (i < n)%nat).
  { rewrite <- Hl. apply nth_error_Some. rewrite Hk. intros E; discriminate E. }
  split; [exact Hi|].
  apply (f_equal (fun l => nth_error l i)) in Hs.
  unfold spec_keystream in Hs.
  rewrite !nth_error_map, Hk, nth_error_seq in Hs.
  apply Nat.ltb_lt in Hi. rewrite Hi in Hs.
  cbn [option_map] in Hs. change (0 + i)%nat with i in Hs.
  apply Some_inj in Hs. symmetry. exact Hs.
Qed.

Lemma hex2_spec b :
  hex2 b = [spec_hex_char (byte_val b / 16); spec_hex_char (byte_val b mod 16)].
Proof. destruct b; reflexivity. Qed.

Lemma spec_unhex_hex2 b s :
  spec_unhex (hex2 b ++ s) = option_map (cons (byte_val b)) (spec_unhex s).
Proof. destruct b; reflexivity. Qed.

Lemma spec_unhex_hex bs : spec_unhex (hex bs) = Some (List.map byte_val bs).
Proof.
  unfold hex. induction bs as [|b bs IH]; [reflexivity|].
  cbn [List.map List.concat]. rewrite spec_unhex_hex2, IH. reflexivity.
Qed.

Lemma hex_nth : forall bs i k,
  nth_error bs i = Some k ->
  nth_error (hex bs) (2 * i) = Some (spec_hex_char (byte_val k / 16)) /\
  nth_error (hex bs) (2 * i + 1) = Some (spec_hex_char (byte_val k mod 16)).
Proof.
  unfold hex. induction bs as [|b bs IH]; intros [|i] k H; try discriminate H.
  - cbn [nth_error] in H. injection H as ->.
    cbn [List.map List.concat]. rewrite hex2_spec. split; reflexivity.
  - cbn [nth_error] in H. cbn [List.map List.concat]. rewrite hex2_spec.
    replace (2 * S i)%nat with (S (S (2 * i))) by lia.
    cbn [app Nat.add nth_error]. apply (IH i k H).
Qed.

Lemma hex2_shape b :
  List.length (hex2 b) = 2%nat /\ forallb is_lower_hex (hex2 b) = true.
Proof. destruct b; split; reflexivity. Qed.

Lemma hex_shape bs :
  List.length (hex bs) = (2 * List.length bs)%nat /\
  forallb is_lower_hex (hex bs) = true.
Proof.
  unfold hex. induction bs as [|b bs [IH1 IH2]]; [split; reflexivity|].
  destruct (hex2_shape b) as [H1 H2].
  cbn [List.map List.concat List.length]. rewrite length_app, forallb_app, H1, H2, IH1, IH2.
  split; [lia | reflexivity].
Qed.

(** C8. For every password the fingerprint is returned (nothing is
    raised) and is the hexadecimal encoding, two lowercase digits per byte
    and in stream order, of the first 32 keystream bytes of the password's
    seed: characters [2 i] and [2 i + 1] are the digits of [0123456789abcdef]
    at positions [k / 16] and [k mod 16] for the keystream byte [k] of index
    [i]; read back two digits per byte the string gives the 32 byte values;
    it has 64 characters, each in [0-9a-f].  It is a function of the
    password alone: the fingerprint [quantum_encrypt] returns is this
    string whatever the data. *)
Theorem C8_fingerprint password :
  exists ks fp,
    List.map Some ks = spec_keystream (generate_entropy_seed password) 32 /\
    generate_entropy_fingerprint password = Ok fp /\
    fp = List.concat (List.map hex2 ks) /\
    List.length fp = 64%nat /\
    forallb is_lower_hex fp = true /\
    (forall i, (i < 32)%nat ->
       exists k,
         spec_byte (spec_x (generate_entropy_seed password) (100 + S i))
                   (spec_y (generate_entropy_seed password) (100 + S i)) = Some k /\
         nth_error fp (2 * i) = Some (spec_hex_char (byte_val k / 16)) /\
         nth_error fp (2 * i + 1) = Some (spec_hex_char (byte_val k mod 16))) /\
    spec_unhex fp = Some (List.map byte_val ks) /\
    forall data blob fp' chk,
      quantum_encrypt data password = Ok (blob, fp', chk) -> fp' = fp.
Proof.
  destruct (fingerprint_total password) as (ks & Ef & Hl & Hs).
  destruct (hex_shape ks) as [H1 H2].
  exists ks, (hex ks). split; [exact Hs|]. split; [exact Ef|].
  split; [reflexivity|].
  split; [rewrite H1, Hl; reflexivity|]. split; [exact H2|].
  split; [|split; [apply spec_unhex_hex|]].
  - intros i Hi.
    destruct (nth_error ks i) as [k|] eqn:Ek;
      [|apply nth_error_None in Ek; lia].
    destruct (spec_keystream_nth _ _ _ _ _ Hs Ek) as [_ Hb].
    destruct (hex_nth ks i k Ek) as [Hh Hlo].
    exists k. split; [exact Hb|]. split; [exact Hh | exact Hlo].
  - intros data blob fp' chk H.
    destruct (quantum_encrypt_inv _ _ _ _ _ H) as (_ & _ & Hf & _).
    congruence.
Qed.

(** The fingerprint of [correcthorse], with the first two keystream bytes
    of its seed. *)
Lemma C8_fingerprint_witness :
  generate_entropy_fingerprint correcthorse
  = Ok (py_str "7d4eb4996e799ac69187ef204490468a162f68a6c47d51b9985b7d4dac7074f7") /\
  spec_unhex (py_str "7d4eb4996e799ac69187ef204490468a162f68a6c47d51b9985b7d4dac7074f7")
  = Some [0x7d; 0x4e; 0xb4; 0x99; 0x6e; 0x79; 0x9a; 0xc6;
          0x91; 0x87; 0xef; 0x20; 0x44; 0x90; 0x46; 0x8a;
          0x16; 0x2f; 0x68; 0xa6; 0xc4; 0x7d; 0x51; 0xb9;
          0x98; 0x5b; 0x7d; 0x4d; 0xac; 0x70; 0x74; 0xf7] /\
  spec_keystream (generate_entropy_seed correcthorse) 2 = [Some x7d; Some x4e] /\
  exists ks fp,
    List.map Some ks = spec_keystream (generate_entropy_seed correcthorse) 32 /\
    generate_entropy_fingerprint correcthorse = Ok fp /\
    fp = List.concat (List.map hex2 ks) /\
    List.length fp = 64%nat /\
    forallb is_lower_hex fp = true /\
    (forall i, (i < 32)%nat ->
       exists k,
         spec_byte (spec_x (generate_entropy_seed correcthorse) (100 + S i))
                   (spec_y (generate_entropy_seed correcthorse) (100 + S i)) = Some k /\
         nth_error fp (2 * i) = Some (spec_hex_char (byte_val k / 16)) /\
         nth_error fp (2 * i + 1) = Some (spec_hex_char (byte_val k mod 16))) /\
    spec_unhex fp = Some (List.map byte_val ks) /\
    forall data blob fp' chk,
      quantum_encrypt data correcthorse = Ok (blob, fp', chk) -> fp' = fp.
Proof.
  split; [vm_compute; reflexivity|].
  split; [vm_compute; reflexivity|].
  split; [vm_compute; reflexivity|].
  apply (C8_fingerprint correcthorse).
Defined.

Lemma ltb_leb a b : ltb a b = true -> leb a b = true.
Proof.
  unfold ltb, leb, SFltb, SFleb. destruct (SFcompare a b) as [[ | | ]|]; congruence.
Qed.

Lemma nnf_valid x : nnf x -> valid_binary prec emax x = true.
Proof. intros [->|(m & e & -> & H)]; [reflexivity | exact H]. Qed.

(** C9 (as stated, refuted). The seed of the empty password is exactly
    the lower clamping constant 0.0001, which is not inside the open
    interval. *)
Lemma C9_counterexample :
  generate_entropy_seed (py_str "") = c0_0001 /\
  ltb c0_0001 (generate_entropy_seed (py_str "")) = false.
Proof. split; reflexivity. Qed.

(** C9 (amended). For every password string, the empty one included,
    [generate_entropy_seed] returns (it has no error condition) the
    clamped quotient [max(0.0001, min(0.9999, abs(acc) / 0xFFFFFFFF))] of
    the 32-bit accumulator, a binary64 value of the closed interval
    [[0.0001, 0.9999]]. *)
Theorem C9_seed_range password :
  0 <= seed_acc password < 2 ^ 32 /\
  generate_entropy_seed password
  = py_max c0_0001 (py_min c0_9999 (int_truediv (Z.abs (seed_acc password)) 0xFFFFFFFF)) /\
  valid_binary prec emax (generate_entropy_seed password) = true /\
  leb c0_0001 (generate_entropy_seed password) = true /\
  leb (generate_entropy_seed password) c0_9999 = true.
Proof.
  split; [apply seed_acc_range|]. split; [reflexivity|].
  split; [apply nnf_valid, generate_entropy_seed_unit|].
  destruct (generate_entropy_seed_cases password) as [E|[E|(_ & H1 & H2)]].
  - rewrite E. split; reflexivity.
  - rewrite E. split; reflexivity.
  - split; apply ltb_leb; assumption.
Qed.

(** C10. For every password and every blob whose fingerprint and checksum
    checks pass and whose 4-byte big-endian prefix decodes to [N], if the
    blob holds at least [4 + N] bytes then [quantum_decrypt] succeeds and
    returns exactly [N] bytes; the value of byte [i] is the bitwise
    exclusive or of the value of the blob's byte at offset [4 + i] and of
    keystream byte [i] of the password's seed; bytes of the blob beyond
    offset [4 + N] are ignored. *)
Theorem C10_trailing_bytes encrypted password fp chk N :
  generate_entropy_fingerprint password = Ok fp ->
  quantum_hash encrypted password = Ok chk ->
  unpack_be32 (firstn 4 encrypted) = Ok N ->
  4 + N <= len encrypted ->
  exists ks data,
    List.map Some ks = spec_keystream (generate_entropy_seed password) (Z.to_nat N) /\
    quantum_decrypt encrypted password fp chk = Ok (Some data) /\
    data = xor_bytes (firstn (Z.to_nat N) (skipn 4 encrypted)) ks /\
    len data = N /\
    forall i, (i < Z.to_nat N)%nat ->
      exists b k d,
        nth_error encrypted (4 + i) = Some b /\
        spec_byte (spec_x (generate_entropy_seed password) (100 + S i))
                  (spec_y (generate_entropy_seed password) (100 + S i)) = Some k /\
        nth_error data i = Some d /\
        byte_val d = Z.lxor (byte_val b) (byte_val k).
Proof.
  intros Hf Hh Hu Hlen.
  destruct (quantum_decrypt_checked _ _ _ _ _ Hf Hh Hu) as (ks & Hl & Hs & Ed).
  assert (HN : 0 <= N).
  { destruct (firstn 4 encrypted) as [|b3 [|b2 [|b1 [|b0 [|b4 t]]]]];
      try discriminate Hu.
    rewrite unpack_be32_four in Hu. injection Hu as <-.
    pose proof (byte_val_range b3). pose proof (byte_val_range b2).
    pose proof (byte_val_range b1). pose proof (byte_val_range b0). lia. }
  assert (Hout : len (xor_bytes (skipn 4 encrypted) ks) = N).
  { unfold len in *. rewrite xor_bytes_length, length_skipn, Hl. lia. }
  exists ks, (xor_bytes (firstn (Z.to_nat N) (skipn 4 encrypted)) ks).
  split; [exact Hs|].
  rewrite Ed, Hout, Z.eqb_refl.
  rewrite (xor_bytes_firstn (skipn 4 encrypted) ks), Hl in *.
  split; [reflexivity|]. split; [reflexivity|]. split; [exact Hout|].
  intros i Hi.
  destruct (nth_error (xor_bytes (firstn (Z.to_nat N) (skipn 4 encrypted)) ks) i)
    as [d|] eqn:Ed'.
  - destruct (xor_bytes_nth_inv _ _ _ _ Ed') as (b & k & Hb & Hk & Hx).
    exists b, k, d.
    rewrite nth_error_firstn in Hb.
    destruct (i <? Z.to_nat N)%nat; [|discriminate Hb].
    rewrite nth_error_skipn in Hb.
    destruct (spec_keystream_nth _ _ _ _ _ Hs Hk) as [_ Hsb].
    repeat split; assumption.
  - apply nth_error_None in Ed'. unfold len in Hout. lia.
Qed.

Lemma C10_trailing_bytes_witness :
  generate_entropy_fingerprint correcthorse = Ok hello_fp /\
  quantum_hash (hello_blob ++ [xff; xfe]) correcthorse
  = Ok (chk_of (hello_blob ++ [xff; xfe]) correcthorse) /\
  unpack_be32 (firstn 4 (hello_blob ++ [xff; xfe])) = Ok 11 /\
  4 + 11 <= len (hello_blob ++ [xff; xfe]) /\
  quantum_decrypt (hello_blob ++ [xff; xfe]) correcthorse hello_fp
                  (chk_of (hello_blob ++ [xff; xfe]) correcthorse)
  = Ok (Some (py_bytes "hello world")) /\
  exists ks data,
    List.map Some ks = spec_keystream (generate_entropy_seed correcthorse) (Z.to_nat 11) /\
    quantum_decrypt (hello_blob ++ [xff; xfe]) correcthorse hello_fp
                    (chk_of (hello_blob ++ [xff; xfe]) correcthorse)
    = Ok (Some data) /\
    data = xor_bytes (firstn (Z.to_nat 11) (skipn 4 (hello_blob ++ [xff; xfe]))) ks /\
    len data = 11 /\
    forall i, (i < Z.to_nat 11)%nat ->
      exists b k d,
        nth_error (hello_blob ++ [xff; xfe]) (4 + i) = Some b /\
        spec_byte (spec_x (generate_entropy_seed correcthorse) (100 + S i))
                  (spec_y (generate_entropy_seed correcthorse) (100 + S i)) = Some k /\
        nth_error data i = Some d /\
        byte_val d = Z.lxor (byte_val b) (byte_val k).
Proof.
  assert (H1 : generate_entropy_fingerprint correcthorse = Ok hello_fp)
    by (vm_compute; reflexivity).
  assert (H2 : quantum_hash (hello_blob ++ [xff; xfe]) correcthorse
               = Ok (chk_of (hello_blob ++ [xff; xfe]) correcthorse))
    by (vm_compute; reflexivity).
  assert (H3 : unpack_be32 (firstn 4 (hello_blob ++ [xff; xfe])) = Ok 11)
    by (vm_compute; reflexivity).
  assert (H4 : 4 + 11 <= len (hello_blob ++ [xff; xfe]))
    by (vm_compute; discriminate).
  repeat (split; [assumption|]).
  split; [vm_compute; reflexivity|].
  apply (C10_trailing_bytes _ _ _ _ _ H1 H2 H3 H4).
Defined.

(** * Further properties of the engine and of the service *)

(** ** The chaotic maps in binary64 *)

Lemma nnf_zero : nnf (S754_zero false).
Proof. now left. Qed.

Lemma unit_float_of_leb x :
  valid_binary prec emax x = true ->
  leb (of_int 0) x = true -> leb x (of_int 1) = true ->
  x = S754_zero true \/ unit_float x.
Proof.
  intros Hv Hlo Hhi.
  assert (N1 : nnf one) by (apply nnf_finite; reflexivity).
  destruct x as [[|]|[|]| |[|] m e]; try discriminate Hlo; try discriminate Hhi.
  - now left.
  - right. split; [apply nnf_zero|]. cbn [fval]. apply nnf_fval_nonneg, N1.
  - right. assert (Nx : nnf (S754_finite false m e)) by (apply nnf_finite; exact Hv).
    split; [exact Nx|]. rewrite of_int_1 in Hhi. now apply (leb_val _ _ Nx N1).
Qed.

Lemma unit_float_leb x :
  unit_float x ->
  valid_binary prec emax x = true /\
  leb (of_int 0) x = true /\ leb x (of_int 1) = true.
Proof.
  intros [Hx Hx1].
  assert (N1 : nnf one) by (apply nnf_finite; reflexivity).
  split; [apply nnf_valid, Hx|]. split.
  - change (of_int 0) with (S754_zero false).
    apply (leb_val _ _ nnf_zero Hx). cbn [fval]. apply nnf_fval_nonneg, Hx.
  - rewrite of_int_1. now apply (leb_val _ _ Hx N1).
Qed.

(** X1. In binary64, with the rounding of each of its three operations,
    [logistic_map] maps every float of [[0, 1]] to a float of [[0, 1]]: the
    trajectory never becomes negative, infinite or nan. *)
Theorem X1_logistic_map_range x :
  valid_binary prec emax x = true ->
  leb (of_int 0) x = true -> leb x (of_int 1) = true ->
  valid_binary prec emax (logistic_map x) = true /\
  leb (of_int 0) (logistic_map x) = true /\
  leb (logistic_map x) (of_int 1) = true.
Proof.
  intros Hv Hlo Hhi.
  destruct (unit_float_of_leb x Hv Hlo Hhi) as [->|Hu].
  - repeat split; reflexivity.
  - apply unit_float_leb, logistic_map_unit, Hu.
Qed.

Lemma X1_logistic_map_range_witness :
  valid_binary prec emax c0_5 = true /\
  leb (of_int 0) c0_5 = true /\ leb c0_5 (of_int 1) = true /\
  valid_binary prec emax (logistic_map c0_5) = true /\
  leb (of_int 0) (logistic_map c0_5) = true /\
  leb (logistic_map c0_5) (of_int 1) = true.
Proof.
  repeat (split; [reflexivity|]).
  apply (X1_logistic_map_range c0_5); reflexivity.
Defined.

(** X2. In binary64, [tent_map] maps every float of [[0, 1]] to a float of
    [[0, 1]], on both of its branches. *)
Theorem X2_tent_map_range x :
  valid_binary prec emax x = true ->
  leb (of_int 0) x = true -> leb x (of_int 1) = true ->
  valid_binary prec emax (tent_map x) = true /\
  leb (of_int 0) (tent_map x) = true /\
  leb (tent_map x) (of_int 1) = true.
Proof.
  intros Hv Hlo Hhi.
  destruct (unit_float_of_leb x Hv Hlo Hhi) as [->|Hu].
  - repeat split; reflexivity.
  - apply unit_float_leb, tent_map_unit, Hu.
Qed.

Lemma X2_tent_map_range_witness :
  valid_binary prec emax c0_9999 = true /\
  leb (of_int 0) c0_9999 = true /\ leb c0_9999 (of_int 1) = true /\
  valid_binary prec emax (tent_map c0_9999) = true /\
  leb (of_int 0) (tent_map c0_9999) = true /\
  leb (tent_map c0_9999) (of_int 1) = true.
Proof.
  repeat (split; [reflexivity|]).
  apply (X2_tent_map_range c0_9999); reflexivity.
Defined.

(** ** Seeds *)

Lemma raw_seed_small acc :
  0 <= acc <= 429496 ->
  nnf (int_truediv (Z.abs acc) 0xFFFFFFFF) /\
  fval (int_truediv (Z.abs acc) 0xFFFFFFFF) <= fval c0_0001.
Proof.
  intros Hacc. unfold int_truediv. rewrite of_int_FFFFFFFF.
  pose proof U_pos as HU.
  assert (VB : val (Zpos 7378685095051264) (-34) = 429496 * 2 ^ 128 * U)
    by (rewrite val_scaled by lia; reflexivity).
  assert (VF : val (Zpos 9007199252643840) (-21) = 4294967295 * 2 ^ 128 * U)
    by (rewrite val_scaled by lia; reflexivity).
  assert (VC : val (Zpos 7378697629483821) (-66) = 7378697629483821 * 2 ^ 62 * U)
    by (rewrite val_scaled by lia; reflexivity).
  destruct (binary_normalize_le (Z.abs acc) 0 7378685095051264 (-34)) as [N1 N2];
    [lia | klia | reflexivity | | ].
  { rewrite VB, val_scaled by lia. change (2 ^ (0 + 128)) with (2 ^ 128).
    rewrite Z.abs_eq by lia.
    apply Z.mul_le_mono_nonneg_r; [lia|]. apply Z.mul_le_mono_nonneg_r; lia. }
  fold (of_int (Z.abs acc)) in N1, N2.
  change (fval c0_0001) with (val (Zpos 7378697629483821) (-66)).
  apply (div_le (of_int (Z.abs acc)) 9007199252643840 (-21) 7378697629483821 (-66)
           N1 eq_refl eq_refl).
  rewrite VB in N2. rewrite VF, VC, pow2K_scaled.
  pose proof (nnf_fval_nonneg _ N1).
  apply Z.le_lt_trans with (429496 * 2 ^ 128 * U * (2 ^ 128 * U)).
  - apply Z.mul_le_mono_nonneg_r; lia.
  - replace (429496 * 2 ^ 128 * U * (2 ^ 128 * U))
      with (429496 * 2 ^ 256 * (U * U)) by ring.
    replace (4294967295 * 2 ^ 128 * U * (7378697629483821 * 2 ^ 62 * U))
      with (4294967295 * 7378697629483821 * 2 ^ 190 * (U * U)) by ring.
    apply Z.mul_lt_mono_pos_r; [nia | lia].
Qed.

(** X3. Every password whose 32-bit accumulator is at most 429496 has
    the seed 0.0001 exactly: the quotient [acc / 0xFFFFFFFF] does not exceed
    the float 0.0001 and [max] returns its first argument.  All these
    passwords share one keystream. *)
Theorem X3_seed_clamped_low password :
  seed_acc password <= 429496 -> generate_entropy_seed password = c0_0001.
Proof.
  intros Hle. pose proof (seed_acc_range password) as Hr.
  destruct (raw_seed_small (seed_acc password)) as [Nq Hq]; [lia|].
  assert (N1 : nnf c0_0001) by (apply nnf_finite; reflexivity).
  assert (N2 : nnf c0_9999) by (apply nnf_finite; reflexivity).
  assert (L : fval c0_0001 < fval c0_9999) by (apply ltb_val; auto).
  unfold generate_entropy_seed, py_max, py_min.
  set (q := int_truediv (Z.abs (seed_acc password)) 0xFFFFFFFF) in *.
  assert (E1 : ltb q c0_9999 = true) by (apply ltb_val; auto; lia).
  rewrite E1.
  destruct (ltb c0_0001 q) eqn:E2; [|reflexivity].
  apply (ltb_val _ _ N1 Nq) in E2. lia.
Qed.

Lemma X3_seed_clamped_low_witness :
  seed_acc (py_str "Aa") <= 429496 /\
  generate_entropy_seed (py_str "Aa") = c0_0001.
Proof.
  assert (H : seed_acc (py_str "Aa") <= 429496) by (vm_compute; discriminate).
  split; [exact H|]. apply (X3_seed_clamped_low (py_str "Aa") H).
Defined.

Lemma seed_acc_app p suffix :
  seed_acc (p ++ suffix) = fold_left seed_step suffix (seed_acc p).
Proof. unfold seed_acc. apply fold_left_app. Qed.

Lemma quantum_encrypt_seed data p1 p2 :
  generate_entropy_seed p2 = generate_entropy_seed p1 ->
  quantum_encrypt data p2 = quantum_encrypt data p1.
Proof.
  intros H. unfold quantum_encrypt, generate_entropy_fingerprint, quantum_hash.
  rewrite H. reflexivity.
Qed.

(** X4. A collision of the 32-bit accumulator extends to every common
    suffix: if two passwords reach the same accumulator, then appending the
    same characters to both gives two passwords with the same seed, for
    which [quantum_encrypt] returns the same blob, fingerprint and checksum
    on every buffer. *)
Theorem X4_collision_extends p1 p2 suffix data :
  seed_acc p1 = seed_acc p2 ->
  generate_entropy_seed (p1 ++ suffix) = generate_entropy_seed (p2 ++ suffix) /\
  quantum_encrypt data (p1 ++ suffix) = quantum_encrypt data (p2 ++ suffix).
Proof.
  intros H.
  assert (E : generate_entropy_seed (p1 ++ suffix)
              = generate_entropy_seed (p2 ++ suffix)).
  { unfold generate_entropy_seed. now rewrite !seed_acc_app, H. }
  split; [exact E|]. now apply quantum_encrypt_seed.
Qed.

Lemma X4_collision_extends_witness :
  seed_acc (py_str "Aa") = seed_acc (py_str "BB") /\
  generate_entropy_seed (py_str "Aa" ++ py_str "password")
  = generate_entropy_seed (py_str "BB" ++ py_str "password") /\
  quantum_encrypt hello_world (py_str "Aa" ++ py_str "password")
  = quantum_encrypt hello_world (py_str "BB" ++ py_str "password").
Proof.
  split; [reflexivity|].
  apply (X4_collision_extends (py_str "Aa") (py_str "BB") (py_str "password")
           hello_world eq_refl).
Defined.

(** ** The stream and its consumers *)

Lemma take_next_loop stop k : forall x y r1 r2,
  (k <= r1)%nat -> (k <= r2)%nat ->
  take_next stop k (GenLoop x y r1) = take_next stop k (GenLoop x y r2).
Proof.
  induction k as [|k IH]; intros x y r1 r2 H1 H2; [reflexivity|].
  destruct r1 as [|r1]; [lia|]. destruct r2 as [|r2]; [lia|].
  cbn [take_next]. unfold next_or. cbn [gen_next gen_loop].
  destruct (emit (logistic_map x) (tent_map y)) as [b|e]; [|reflexivity].
  cbn [bind snd fst]. rewrite (IH _ _ r1 r2) by lia. reflexivity.
Qed.

Lemma take_next_first stop k g1 g2 :
  gen_next g1 = gen_next g2 -> take_next stop (S k) g1 = take_next stop (S k) g2.
Proof. intros H. cbn [take_next]. unfold next_or. now rewrite H. Qed.

(** X5. What a stream yields does not depend on the length it was
    created with, which only bounds how many bytes it yields: for every
    seed (valid or not), the first [k] results of [next] on a stream of
    length [n >= k] are those of a stream of length [k], raised exception
    included.  The 32 bytes of the fingerprint and of the hash state are
    thus the first 32 bytes of the keystream that encrypts the data. *)
Theorem X5_stream_prefix stop seed k n :
  (k <= Z.to_nat n)%nat ->
  take_next stop k (entropy_stream seed n)
  = take_next stop k (entropy_stream seed (Z.of_nat k)).
Proof.
  intros Hk. destruct k as [|k]; [reflexivity|]. unfold entropy_stream.
  rewrite (take_next_first stop k _ _ (gen_next_new seed n)).
  rewrite (take_next_first stop k _ _ (gen_next_new seed (Z.of_nat (S k)))).
  apply take_next_loop; lia.
Qed.

Lemma X5_stream_prefix_witness :
  (2 <= Z.to_nat 5)%nat /\
  take_next StopIteration 2 (entropy_stream c0_5 5)
  = take_next StopIteration 2 (entropy_stream c0_5 (Z.of_nat 2)).
Proof.
  assert (H : (2 <= Z.to_nat 5)%nat) by (vm_compute; lia).
  split; [exact H|]. apply (X5_stream_prefix StopIteration c0_5 2 5 H).
Defined.

(** X6. [quantum_encrypt] returns a triple exactly for the buffers
    [struct.pack(">I", ...)] can describe: it returns for every buffer of
    at most [2^32 - 1] bytes and every password, and raises [struct.error]
    for every longer buffer. *)
Theorem X6_encrypt_domain data password :
  (len data <= 0xFFFFFFFF ->
   exists blob fp chk, quantum_encrypt data password = Ok (blob, fp, chk)) /\
  (0xFFFFFFFF < len data -> quantum_encrypt data password = Raise StructError).
Proof.
  split; [apply quantum_encrypt_total|].
  intros Hlen. unfold quantum_encrypt.
  destruct (fingerprint_total password) as (ks & -> & _). unfold bind at 1.
  unfold pack_be32.
  replace (len data <=? 0xFFFFFFFF) with false by (symmetry; apply Z.leb_gt; lia).
  rewrite andb_false_r. reflexivity.
Qed.

Lemma map_Some_inj {A} (l1 l2 : list A) :
  List.map Some l1 = List.map Some l2 -> l1 = l2.
Proof.
  revert l2. induction l1 as [|a l1 IH]; intros [|b l2] H; try discriminate H;
    [reflexivity|].
  cbn [List.map] in H. injection H as -> H. f_equal. now apply IH.
Qed.

(** What [quantum_encrypt] returned, with the keystream it used. *)
Lemma quantum_encrypt_keystream data password blob fp chk :
  quantum_encrypt data password = Ok (blob, fp, chk) ->
  exists prefix ks,
    generate_entropy_fingerprint password = Ok fp /\
    pack_be32 (len data) = Ok prefix /\
    List.length ks = List.length data /\
    List.map Some ks
    = spec_keystream (generate_entropy_seed password) (List.length data) /\
    blob = prefix ++ xor_bytes data ks /\
    quantum_hash blob password = Ok chk.
Proof.
  intros H.
  destruct (quantum_encrypt_inv _ _ _ _ _ H)
    as (prefix & ks & Hf & Hp & Hl & Hz & _ & -> & Hh).
  destruct (password_stream password (len data)) as (ks' & g' & En & Hl' & Hend & Hs).
  rewrite to_nat_len in En, Hl', Hs.
  assert (Hz' : xor_zip data (entropy_stream (generate_entropy_seed password) (len data))
                = Ok (xor_bytes data ks')).
  { apply (xor_zip_nexts _ _ _ _ _ En). now right. }
  rewrite Hz in Hz'. injection Hz' as Hz'.
  exists prefix, ks'. rewrite <- Hz'. repeat split; auto.
Qed.

Lemma spec_keystream_eq seed n :
  spec_keystream seed n
  = List.map (fun j => spec_byte (spec_x seed (100 + S j)) (spec_y seed (100 + S j)))
             (seq 0 n).
Proof. reflexivity. Qed.

Lemma xor_recover (f : nat -> option byte) : forall d ks ks' s n',
  List.length ks = List.length d ->
  List.map Some ks = List.map f (seq s (List.length d)) ->
  List.map Some ks' = List.map f (seq s n') ->
  xor_bytes (xor_bytes d ks) ks' = firstn n' d.
Proof.
  unfold xor_bytes.
  induction d as [|b d IH]; intros ks ks' s n' Hl Hk Hk'.
  - destruct ks; [|discriminate Hl]. now rewrite firstn_nil.
  - destruct ks as [|k ks]; [discriminate Hl|].
    destruct n' as [|n'].
    + destruct ks'; [|discriminate Hk']. reflexivity.
    + destruct ks' as [|k' ks']; [discriminate Hk'|].
      cbn [List.length seq List.map] in Hk, Hk'.
      injection Hk as Hk0 Hk. injection Hk' as Hk0' Hk'.
      assert (k' = k) as -> by congruence.
      cbn [combine List.map fst snd firstn]. rewrite byte_xor_involutive. f_equal.
      apply (IH ks ks' (S s) n'); auto.
Qed.

Lemma hex_digit_inj a b :
  0 <= a < 16 -> 0 <= b < 16 -> hex_digit a = hex_digit b -> a = b.
Proof.
  unfold hex_digit. intros Ha Hb H.
  destruct (a <? 10) eqn:Ea; destruct (b <? 10) eqn:Eb;
    try apply Z.ltb_lt in Ea; try apply Z.ltb_ge in Ea;
    try apply Z.ltb_lt in Eb; try apply Z.ltb_ge in Eb; lia.
Qed.

Lemma hex2_inj b1 b2 : hex2 b1 = hex2 b2 -> b1 = b2.
Proof.
  unfold hex2. intros H. injection H as Hh Hl.
  pose proof (byte_val_range b1) as R1. pose proof (byte_val_range b2) as R2.
  apply hex_digit_inj in Hh;
    [| split; [apply Z.div_pos | apply Z.div_lt_upper_bound]; lia
     | split; [apply Z.div_pos | apply Z.div_lt_upper_bound]; lia].
  apply hex_digit_inj in Hl; [| apply Z.mod_pos_bound; lia | apply Z.mod_pos_bound; lia].
  rewrite <- (byte_of_Z_val b1), <- (byte_of_Z_val b2). f_equal.
  rewrite (Z.div_mod (byte_val b1) 16), (Z.div_mod (byte_val b2) 16) by lia.
  now rewrite Hh, Hl.
Qed.

Lemma hex_inj bs1 : forall bs2, hex bs1 = hex bs2 -> bs1 = bs2.
Proof.
  unfold hex. induction bs1 as [|b1 bs1 IH]; intros [|b2 bs2] H;
    try discriminate H; [reflexivity|].
  cbn [List.map List.concat] in H. unfold hex2 at 1 3 in H.
  cbn [app] in H. injection H as Hh Hl Ht.
  f_equal; [apply hex2_inj; unfold hex2; congruence | apply IH, Ht].
Qed.

(** X7. The fingerprint is the keystream's first 32 bytes in hexadecimal,
    and hexadecimal encoding is injective: whenever [quantum_encrypt]
    returns [(blob, fp, chk)], reading [fp] back two digits per byte gives
    the values of 32 bytes, the first keystream bytes of the password's
    seed, and for each of the first 32 positions [i] of the data the value
    of the data byte is the bitwise exclusive or of the value of the blob's
    byte at offset [4 + i] and of the byte [i] read from [fp]: the start of
    the data (all of it when it is shorter) is recovered without the
    password. *)
Theorem X7_fingerprint_reveals_prefix data password blob fp chk :
  quantum_encrypt data password = Ok (blob, fp, chk) ->
  exists ks32,
    fp = hex ks32 /\ List.length ks32 = 32%nat /\
    (forall ks', hex ks' = fp -> ks' = ks32) /\
    spec_unhex fp = Some (List.map byte_val ks32) /\
    List.map Some ks32 = spec_keystream (generate_entropy_seed password) 32 /\
    xor_bytes (skipn 4 blob) ks32 = firstn 32 data /\
    forall i d, (i < 32)%nat -> nth_error data i = Some d ->
      exists c k,
        nth_error blob (4 + i) = Some c /\
        nth_error ks32 i = Some k /\
        byte_val d = Z.lxor (byte_val c) (byte_val k).
Proof.
  intros H.
  destruct (quantum_encrypt_keystream _ _ _ _ _ H)
    as (prefix & ks & Hf & Hp & Hl & Hs & -> & _).
  destruct (pack_be32_inv _ _ Hp) as (_ & Hl4 & _).
  destruct (fingerprint_total password) as (ks32 & Ef & Hl32 & Hs32).
  assert (Hx : xor_bytes (skipn 4 (prefix ++ xor_bytes data ks)) ks32
               = firstn 32 data).
  { rewrite (skipn_prefix _ _ Hl4).
    rewrite spec_keystream_eq in Hs, Hs32.
    apply (xor_recover _ data ks ks32 0%nat 32%nat Hl Hs Hs32). }
  exists ks32. split; [congruence|]. split; [exact Hl32|]. split; [|split].
  - intros ks' Hk. apply hex_inj. congruence.
  - assert (fp = hex ks32) as -> by congruence. apply spec_unhex_hex.
  - split; [exact Hs32|]. split; [exact Hx|].
    intros i d Hi Hd.
    assert (Hd' : nth_error (firstn 32 data) i = Some d).
    { rewrite nth_error_firstn. apply Nat.ltb_lt in Hi. now rewrite Hi. }
    rewrite <- Hx in Hd'.
    destruct (xor_bytes_nth_inv _ _ _ _ Hd') as (c & k & Hc & Hk & Hv).
    rewrite nth_error_skipn in Hc.
    exists c, k. repeat split; assumption.
Qed.

Lemma X7_fingerprint_reveals_prefix_witness :
  quantum_encrypt hello_world correcthorse = Ok (hello_blob, hello_fp, hello_chk) /\
  exists ks32,
    hello_fp = hex ks32 /\ List.length ks32 = 32%nat /\
    (forall ks', hex ks' = hello_fp -> ks' = ks32) /\
    spec_unhex hello_fp = Some (List.map byte_val ks32) /\
    List.map Some ks32 = spec_keystream (generate_entropy_seed correcthorse) 32 /\
    xor_bytes (skipn 4 hello_blob) ks32 = firstn 32 hello_world /\
    forall i d, (i < 32)%nat -> nth_error hello_world i = Some d ->
      exists c k,
        nth_error hello_blob (4 + i) = Some c /\
        nth_error ks32 i = Some k /\
        byte_val d = Z.lxor (byte_val c) (byte_val k).
Proof.
  assert (H : quantum_encrypt hello_world correcthorse
              = Ok (hello_blob, hello_fp, hello_chk)) by (vm_compute; reflexivity).
  split; [exact H|]. apply (X7_fingerprint_reveals_prefix _ _ _ _ _ H).
Defined.





(** ** Decrypt, then encrypt *)

Lemma pack_unpack b n : unpack_be32 b = Ok n -> pack_be32 n = Ok b.
Proof.
  destruct b as [|b3 [|b2 [|b1 [|b0 [|b4 t]]]]]; try discriminate.
  rewrite unpack_be32_four. intros H. injection H as <-.
  pose proof (byte_val_range b3). pose proof (byte_val_range b2).
  pose proof (byte_val_range b1). pose proof (byte_val_range b0).
  set (v3 := byte_val b3) in *. set (v2 := byte_val b2) in *.
  set (v1 := byte_val b1) in *. set (v0 := byte_val b0) in *.
  set (n := v3 * 16777216 + v2 * 65536 + v1 * 256 + v0).
  unfold pack_be32.
  replace ((0 <=? n) && (n <=? 0xFFFFFFFF)) with true
    by (symmetry; apply andb_true_iff; split; apply Z.leb_le; unfold n; lia).
  rewrite !Z.shiftr_div_pow2 by lia.
  change (2 ^ 24) with 16777216. change (2 ^ 16) with 65536. change (2 ^ 8) with 256.
  assert (Q3 : n / 16777216 = v3).
  { symmetry. apply Z.div_unique with (r := v2 * 65536 + v1 * 256 + v0); unfold n; lia. }
  assert (Q2 : n / 65536 = v3 * 256 + v2).
  { symmetry. apply Z.div_unique with (r := v1 * 256 + v0); unfold n; lia. }
  assert (Q1 : n / 256 = v3 * 65536 + v2 * 256 + v1).
  { symmetry. apply Z.div_unique with (r := v0); unfold n; lia. }
  assert (M3 : n / 16777216 mod 256 = v3) by (rewrite Q3; apply Z.mod_small; lia).
  assert (M2 : n / 65536 mod 256 = v2).
  { rewrite Q2. symmetry. apply Z.mod_unique with (q := v3); lia. }
  assert (M1 : n / 256 mod 256 = v1).
  { rewrite Q1. symmetry. apply Z.mod_unique with (q := v3 * 256 + v2); lia. }
  assert (M0 : n mod 256 = v0).
  { symmetry. apply Z.mod_unique with (q := v3 * 65536 + v2 * 256 + v1); unfold n; lia. }
  rewrite M3, M2, M1, M0. unfold v3, v2, v1, v0. now rewrite !byte_of_Z_val.
Qed.

Lemma quantum_decrypt_some_inv blob password fp chk data :
  quantum_decrypt blob password fp chk = Ok (Some data) ->
  generate_entropy_fingerprint password = Ok fp /\
  quantum_hash blob password = Ok chk /\
  exists N ks,
    unpack_be32 (firstn 4 blob) = Ok N /\
    List.length ks = Z.to_nat N /\
    List.map Some ks = spec_keystream (generate_entropy_seed password) (Z.to_nat N) /\
    data = xor_bytes (skipn 4 blob) ks /\ len data = N.
Proof.
  intros H.
  destruct (fingerprint_total password) as (ks32 & Ef & _).
  destruct (quantum_hash_total blob password) as (h & Eh).
  destruct (list_eq_dec N.eq_dec (hex ks32) fp) as [Efp|Nfp].
  2:{ rewrite quantum_decrypt_mismatch in H by (left; congruence). discriminate H. }
  destruct (list_eq_dec N.eq_dec h chk) as [Echk|Nchk].
  2:{ rewrite quantum_decrypt_mismatch in H by (right; congruence). discriminate H. }
  subst fp chk. split; [exact Ef|]. split; [exact Eh|].
  destruct (unpack_be32 (firstn 4 blob)) as [N|e] eqn:Hu.
  - destruct (quantum_decrypt_checked _ _ _ _ _ Ef Eh Hu) as (ks & Hl & Hs & Ed).
    rewrite Ed in H.
    destruct (len (xor_bytes (skipn 4 blob) ks) =? N) eqn:E; [|discriminate H].
    apply Z.eqb_eq in E. injection H as <-.
    exists N, ks. auto.
  - exfalso.
    assert (E : quantum_decrypt blob password (hex ks32) h = Raise e).
    { unfold quantum_decrypt.
      rewrite Ef. unfold bind at 1. rewrite str_eqb_refl. unfold negb at 1.
      rewrite Eh. unfold bind at 1. rewrite str_eqb_refl. unfold negb at 1.
      rewrite Hu. reflexivity. }
    rewrite E in H. discriminate H.
Qed.

Lemma decrypt_encrypt_inverse blob password fp chk data :
  quantum_decrypt blob password fp chk = Ok (Some data) ->
  len blob = 4 + len data ->
  quantum_encrypt data password = Ok (blob, fp, chk).
Proof.
  intros H Hlen.
  destruct (quantum_decrypt_some_inv _ _ _ _ _ H)
    as (Ef & Eh & N & ks & Hu & Hl & Hs & Hd & HN).
  pose proof (pack_unpack _ _ Hu) as Hp.
  assert (Hbody : List.length (skipn 4 blob) = List.length ks).
  { rewrite length_skipn, Hl, <- HN. unfold len in *. lia. }
  destruct (password_stream password (len data)) as (ks' & g' & En & Hl' & Hend & Hs').
  assert (ks' = ks) as ->.
  { apply map_Some_inj. rewrite Hs', Hs, HN. reflexivity. }
  unfold quantum_encrypt.
  rewrite Ef. unfold bind at 1. rewrite HN, Hp. unfold bind at 1.
  rewrite <- HN.
  rewrite (xor_zip_nexts _ _ _ _ data En) by now right.
  unfold bind at 1.
  rewrite Hd, xor_bytes_involutive by (symmetry; exact Hbody).
  rewrite firstn_skipn, Eh. reflexivity.
Qed.

(** X9. The round trip in the other direction: whenever [quantum_decrypt]
    returns bytes for a blob that holds nothing beyond the bytes its prefix
    announces, [quantum_encrypt] on those bytes with the same password
    returns that very blob, fingerprint and checksum.  On such blobs
    decryption is therefore injective. *)
Theorem X9_decrypt_then_encrypt blob password fp chk data :
  quantum_decrypt blob password fp chk = Ok (Some data) ->
  len blob = 4 + len data ->
  quantum_encrypt data password = Ok (blob, fp, chk).
Proof. apply decrypt_encrypt_inverse. Qed.

Lemma X9_decrypt_then_encrypt_witness :
  quantum_decrypt hello_blob correcthorse hello_fp hello_chk = Ok (Some hello_world) /\
  len hello_blob = 4 + len hello_world /\
  quantum_encrypt hello_world correcthorse = Ok (hello_blob, hello_fp, hello_chk).
Proof.
  assert (H : quantum_decrypt hello_blob correcthorse hello_fp hello_chk
              = Ok (Some hello_world)) by (vm_compute; reflexivity).
  split; [exact H|]. split; [reflexivity|].
  apply (X9_decrypt_then_encrypt _ _ _ _ _ H). reflexivity.
Defined.

(** ** The hash *)

Lemma length_set_nth l : forall i v, List.length (set_nth l i v) = List.length l.
Proof.
  induction l as [|h t IH]; intros [|i] v; cbn [set_nth List.length]; auto.
Qed.

Lemma nth_set_nth_eq l : forall i v d,
  (i < List.length l)%nat -> nth i (set_nth l i v) d = v.
Proof.
  induction l as [|h t IH]; intros i v d H; cbn [List.length] in H; [lia|].
  destruct i as [|i]; cbn [set_nth nth]; [reflexivity|].
  apply IH. lia.
Qed.

Lemma nth_set_nth_neq l : forall i j v d,
  i <> j -> nth j (set_nth l i v) d = nth j l d.
Proof.
  induction l as [|h t IH]; intros [|i] [|j] v d H; cbn [set_nth nth];
    try reflexivity; try congruence.
  apply IH. congruence.
Qed.

Lemma set_nth_twice l : forall i a b, set_nth (set_nth l i a) i b = set_nth l i b.
Proof.
  induction l as [|h t IH]; intros [|i] a b; cbn [set_nth]; try reflexivity.
  now rewrite IH.
Qed.

Lemma hash_mix_range v : byte_range v -> byte_range (hash_mix v).
Proof.
  intros Hv. unfold hash_mix.
  destruct (hash_kick_total v Hv) as (k & ->).
  unfold byte_range. change 0xFF with (Z.ones 8). rewrite Z.land_ones by lia.
  apply Z.mod_pos_bound. lia.
Qed.

(** One iteration of the hash loop writes one state byte. *)
Lemma hash_step_closed state i b :
  Forall byte_range state -> (i mod 32 < List.length state)%nat ->
  hash_step (Ok state) (i, b)
  = Ok (set_nth state (i mod 32)
          (hash_mix (Z.lxor (nth (i mod 32) state 0) (byte_val b)))).
Proof.
  intros Hs Hp. unfold hash_step. cbn [bind fst snd].
  set (p := (i mod 32)%nat) in *.
  set (v := Z.lxor (nth p state 0) (byte_val b)).
  assert (Hv : byte_range v).
  { apply (lxor_bound _ _ 8); [lia | apply nth_range, Hs | apply byte_val_range]. }
  rewrite nth_set_nth_eq by exact Hp.
  unfold hash_mix. destruct (hash_kick_total v Hv) as (k & ->).
  cbn [bind]. now rewrite set_nth_twice.
Qed.

Lemma lane_cons q s b data :
  lane q s (b :: data)
  = if (s mod 32 =? q)%nat then b :: lane q (S s) data else lane q (S s) data.
Proof.
  unfold lane. cbn [List.length seq combine filter fst].
  destruct (s mod 32 =? q)%nat; reflexivity.
Qed.

(** The whole loop, state byte by state byte. *)
Lemma fold_hash_closed data : forall s state,
  Forall byte_range state -> List.length state = 32%nat ->
  exists state',
    fold_left hash_step (combine (seq s (List.length data)) data) (Ok state)
    = Ok state' /\
    Forall byte_range state' /\ List.length state' = 32%nat /\
    forall q, (q < 32)%nat ->
      nth q state' 0 = lane_fold (nth q state 0) (lane q s data).
Proof.
  induction data as [|b data IH]; intros s state Hs Hl.
  - exists state. repeat split; auto.
  - cbn [List.length seq combine fold_left].
    assert (Hp : (s mod 32 < List.length state)%nat).
    { rewrite Hl. apply Nat.mod_upper_bound. lia. }
    rewrite (hash_step_closed state s b Hs Hp).
    set (v := hash_mix (Z.lxor (nth (s mod 32) state 0) (byte_val b))).
    assert (Hv : byte_range v).
    { apply hash_mix_range, (lxor_bound _ _ 8);
        [lia | apply nth_range, Hs | apply byte_val_range]. }
    destruct (IH (S s) (set_nth state (s mod 32) v)) as (st' & Ef & Hr & Hl' & Hq).
    { now apply set_nth_range. }
    { now rewrite length_set_nth. }
    exists st'. split; [exact Ef|]. split; [exact Hr|]. split; [exact Hl'|].
    intros q Hq32. rewrite (Hq q Hq32), lane_cons.
    destruct (s mod 32 =? q)%nat eqn:E.
    + apply Nat.eqb_eq in E. subst q.
      rewrite nth_set_nth_eq by exact Hp. reflexivity.
    + apply Nat.eqb_neq in E. now rewrite nth_set_nth_neq by exact E.
Qed.

(** The checksum in closed form: state byte [q] starts as keystream byte
    [q] and absorbs, in order, the data bytes at the indices congruent to
    [q] modulo 32. *)
Lemma quantum_hash_closed data password ks :
  List.map Some ks = spec_keystream (generate_entropy_seed password) 32 ->
  exists state,
    quantum_hash data password = Ok (hex (List.map byte_of_Z state)) /\
    Forall byte_range state /\ List.length state = 32%nat /\
    forall q, (q < 32)%nat ->
      nth q state 0 = lane_fold (byte_val (nth q ks x00)) (lane q 0 data).
Proof.
  intros Hks.
  destruct (password_stream password 32) as (ks' & g' & En & Hl & _ & Hs).
  change (Z.to_nat 32) with 32%nat in En, Hl, Hs.
  assert (ks' = ks) as -> by (apply map_Some_inj; congruence).
  destruct (fold_hash_closed data 0 (List.map byte_val ks)) as (st & Ef & Hr & Hl' & Hq).
  { apply Forall_forall. intros v Hv. apply in_map_iff in Hv.
    destruct Hv as (b & <- & _). apply byte_val_range. }
  { now rewrite length_map. }
  exists st. split; [|split; [exact Hr|split; [exact Hl'|]]].
  - unfold quantum_hash. rewrite (take_next_nexts StopIteration _ _ _ _ En).
    unfold bind at 1. unfold enumerate. rewrite Ef. reflexivity.
  - intros q Hq32. rewrite (Hq q Hq32). f_equal.
    change 0 with (byte_val x00). apply map_nth.
Qed.

(** X10. For every buffer and every password, [quantum_hash] returns
    (it never raises) a string of exactly 64 characters, all lowercase
    hexadecimal digits, whatever the length of the data. *)
Theorem X10_hash_shape data password :
  exists h,
    quantum_hash data password = Ok h /\
    List.length h = 64%nat /\ forallb is_lower_hex h = true.
Proof.
  destruct (fingerprint_total password) as (ks & _ & _ & Hs).
  destruct (quantum_hash_closed data password ks Hs) as (st & Eh & _ & Hl & _).
  destruct (hex_shape (List.map byte_of_Z st)) as [H1 H2].
  eexists. split; [exact Eh|]. split; [|exact H2].
  rewrite H1, length_map, Hl. reflexivity.
Qed.

(** X11. The checksum of the empty buffer is the password's fingerprint:
    with no data to fold in, the 32 state bytes are the 32 keystream
    bytes the fingerprint encodes. *)
Theorem X11_hash_of_empty password :
  quantum_hash [] password = generate_entropy_fingerprint password.
Proof.
  destruct (password_stream password 32) as (ks & g' & En & _).
  change (Z.to_nat 32) with 32%nat in En.
  unfold quantum_hash, generate_entropy_fingerprint.
  rewrite (take_next_nexts StopIteration _ _ _ _ En).
  rewrite (take_next_nexts RuntimeError _ _ _ _ En).
  cbn [bind enumerate List.length seq combine fold_left].
  rewrite map_map. f_equal. f_equal.
  rewrite <- (map_id ks) at 2. apply map_ext. apply byte_of_Z_val.
Qed.

Lemma lane_none q : forall d s,
  (forall i, ((s + i) mod 32 = q)%nat -> nth_error d i = None) ->
  lane q s d = [].
Proof.
  induction d as [|b d IH]; intros s H; [reflexivity|].
  rewrite lane_cons. destruct (s mod 32 =? q)%nat eqn:E.
  - apply Nat.eqb_eq in E. specialize (H 0%nat). rewrite Nat.add_0_r in H.
    discriminate (H E).
  - apply IH. intros i Hi. apply (H (S i)). now rewrite Nat.add_succ_r.
Qed.

Lemma lane_ext q : forall d1 d2 s,
  (forall i, ((s + i) mod 32 = q)%nat -> nth_error d1 i = nth_error d2 i) ->
  lane q s d1 = lane q s d2.
Proof.
  induction d1 as [|a d1 IH]; intros d2 s H.
  - symmetry. apply lane_none. intros i Hi. rewrite <- (H i Hi). now destruct i.
  - destruct d2 as [|b d2].
    + apply lane_none. intros i Hi. rewrite (H i Hi). now destruct i.
    + rewrite !lane_cons.
      assert (Ht : lane q (S s) d1 = lane q (S s) d2).
      { apply IH. intros i Hi. apply (H (S i)). now rewrite Nat.add_succ_r. }
      rewrite Ht. destruct (s mod 32 =? q)%nat eqn:E; [|reflexivity].
      apply Nat.eqb_eq in E. specialize (H 0%nat). rewrite Nat.add_0_r in H.
      specialize (H E). cbn [nth_error] in H. now injection H as ->.
Qed.

Lemma hex_lane bs : forall q,
  (q < List.length bs)%nat ->
  firstn 2 (skipn (2 * q) (hex bs)) = hex2 (nth q bs x00).
Proof.
  unfold hex. induction bs as [|b bs IH]; intros q Hq; cbn [List.length] in Hq; [lia|].
  cbn [List.map List.concat]. unfold hex2 at 1. cbn [app].
  destruct q as [|q].
  - reflexivity.
  - replace (2 * S q)%nat with (S (S (2 * q))) by lia. cbn [skipn nth].
    apply IH. lia.
Qed.

(** X12. The checksum is 32 independent lanes: the two hexadecimal
    characters at offset [2 * q] depend, beside the password, only on the
    data bytes at the indices congruent to [q] modulo 32.  Two buffers (of
    any lengths) that agree at those indices have the same two characters
    there. *)
Theorem X12_hash_lanes data1 data2 password h1 h2 q :
  (q < 32)%nat ->
  (forall i, (i mod 32 = q)%nat -> nth_error data1 i = nth_error data2 i) ->
  quantum_hash data1 password = Ok h1 ->
  quantum_hash data2 password = Ok h2 ->
  firstn 2 (skipn (2 * q) h1) = firstn 2 (skipn (2 * q) h2).
Proof.
  intros Hq Hagree H1 H2.
  destruct (fingerprint_total password) as (ks & _ & _ & Hs).
  destruct (quantum_hash_closed data1 password ks Hs) as (st1 & E1 & _ & L1 & Q1).
  destruct (quantum_hash_closed data2 password ks Hs) as (st2 & E2 & _ & L2 & Q2).
  rewrite E1 in H1. rewrite E2 in H2. injection H1 as <-. injection H2 as <-.
  rewrite !hex_lane by (rewrite length_map; lia).
  f_equal. change x00 with (byte_of_Z 0). rewrite !map_nth. f_equal.
  rewrite (Q1 q Hq), (Q2 q Hq). f_equal. apply lane_ext. exact Hagree.
Qed.

Lemma X12_hash_lanes_witness :
  (1 < 32)%nat /\
  (forall i, (i mod 32 = 1)%nat ->
     nth_error (py_bytes "hello") i = nth_error (py_bytes "jello") i) /\
  quantum_hash (py_bytes "hello") correcthorse
  = Ok (chk_of (py_bytes "hello") correcthorse) /\
  quantum_hash (py_bytes "jello") correcthorse
  = Ok (chk_of (py_bytes "jello") correcthorse) /\
  firstn 2 (skipn (2 * 1) (chk_of (py_bytes "hello") correcthorse))
  = firstn 2 (skipn (2 * 1) (chk_of (py_bytes "jello") correcthorse)).
Proof.
  assert (H0 : (1 < 32)%nat) by lia.
  assert (Ha : forall i, (i mod 32 = 1)%nat ->
             nth_error (py_bytes "hello") i = nth_error (py_bytes "jello") i).
  { intros i Hi. destruct i as [|[|[|[|[|i]]]]]; try reflexivity. discriminate Hi. }
  assert (H1 : quantum_hash (py_bytes "hello") correcthorse
               = Ok (chk_of (py_bytes "hello") correcthorse))
    by (vm_compute; reflexivity).
  assert (H2 : quantum_hash (py_bytes "jello") correcthorse
               = Ok (chk_of (py_bytes "jello") correcthorse))
    by (vm_compute; reflexivity).
  repeat (split; [assumption|]).
  apply (X12_hash_lanes _ _ _ _ _ 1%nat H0 Ha H1 H2).
Defined.





(** ** The service endpoints *)

Lemma encrypt_blob_len data password blob fp chk :
  quantum_encrypt data password = Ok (blob, fp, chk) -> len blob = 4 + len data.
Proof.
  intros H.
  destruct (quantum_encrypt_inv _ _ _ _ _ H)
    as (prefix & ks & _ & Hp & Hl & _ & _ & -> & _).
  destruct (pack_be32_inv _ _ Hp) as (_ & Hl4 & _).
  rewrite len_app, len_xor_bytes by exact Hl. unfold len at 1. rewrite Hl4. lia.
Qed.

Lemma password_guard_passes (password : str) :
  8 <= len password -> (len password =? 0) || (len password <? 8) = false.
Proof.
  intros H. apply orb_false_iff. split; [apply Z.eqb_neq | apply Z.ltb_ge]; lia.
Qed.

Lemma encrypt_file_accepts data password :
  8 <= len password -> 1 <= len data <= 0xFFFFFFFF ->
  exists blob fp chk,
    quantum_encrypt data password = Ok (blob, fp, chk) /\
    encrypt_file data password = Http200 (blob, fp, chk).
Proof.
  intros Hp Hd.
  destruct (quantum_encrypt_total data password) as (blob & fp & chk & H); [lia|].
  exists blob, fp, chk. split; [exact H|].
  unfold encrypt_file. rewrite (password_guard_passes _ Hp).
  replace (len data =? 0) with false by (symmetry; apply Z.eqb_neq; lia).
  rewrite H. reflexivity.
Qed.

(** X14. Upload then download: for every password of at least 8
    characters and every file of 4 to [2^32 - 1] bytes, [encrypt_file]
    answers 200 with a blob, fingerprint and checksum, and [decrypt_file]
    on these stored values with the same password answers 200 with
    exactly the file. *)
Theorem X14_service_round_trip data password :
  8 <= len password -> 4 <= len data <= 0xFFFFFFFF ->
  exists blob fp chk,
    encrypt_file data password = Http200 (blob, fp, chk) /\
    decrypt_file blob password fp chk = Http200 data.
Proof.
  intros Hp Hd.
  destruct (encrypt_file_accepts data password Hp) as (blob & fp & chk & H & He);
    [lia|].
  exists blob, fp, chk. split; [exact He|].
  pose proof (encrypt_blob_len _ _ _ _ _ H) as Hl.
  unfold decrypt_file. rewrite (password_guard_passes _ Hp).
  replace ((len blob =? 0) || (len blob <? 8)) with false
    by (symmetry; apply orb_false_iff; split; [apply Z.eqb_neq | apply Z.ltb_ge]; lia).
  rewrite (round_trip_same_seed _ _ _ _ _ _ H eq_refl). reflexivity.
Qed.

Lemma X14_service_round_trip_witness :
  8 <= len correcthorse /\ 4 <= len hello_world <= 0xFFFFFFFF /\
  exists blob fp chk,
    encrypt_file hello_world correcthorse = Http200 (blob, fp, chk) /\
    decrypt_file blob correcthorse fp chk = Http200 hello_world.
Proof.
  assert (H1 : 8 <= len correcthorse) by (vm_compute; discriminate).
  assert (H2 : 4 <= len hello_world <= 0xFFFFFFFF)
    by (split; vm_compute; discriminate).
  split; [exact H1|]. split; [exact H2|].
  apply (X14_service_round_trip hello_world correcthorse H1 H2).
Defined.

(** X15. Files of 1 to 3 bytes can be uploaded but not downloaded:
    [encrypt_file] accepts them and answers 200 with a blob of 5 to 7
    bytes, which [decrypt_file] rejects with 400 "Encrypted data corrupted"
    because it is shorter than 8 bytes, although [quantum_decrypt] itself
    would return the file. *)
Theorem X15_short_file_not_downloadable data password :
  8 <= len password -> 1 <= len data <= 3 ->
  exists blob fp chk,
    encrypt_file data password = Http200 (blob, fp, chk) /\
    quantum_decrypt blob password fp chk = Ok (Some data) /\
    decrypt_file blob password fp chk = Http400 "Encrypted data corrupted".
Proof.
  intros Hp Hd.
  destruct (encrypt_file_accepts data password Hp) as (blob & fp & chk & H & He);
    [lia|].
  exists blob, fp, chk. split; [exact He|].
  split; [apply (round_trip_same_seed _ _ _ _ _ _ H eq_refl)|].
  pose proof (encrypt_blob_len _ _ _ _ _ H) as Hl.
  unfold decrypt_file. rewrite (password_guard_passes _ Hp).
  replace (len blob <? 8) with true by (symmetry; apply Z.ltb_lt; lia).
  rewrite orb_true_r. reflexivity.
Qed.

Lemma X15_short_file_not_downloadable_witness :
  8 <= len correcthorse /\ 1 <= len (py_bytes "abc") <= 3 /\
  exists blob fp chk,
    encrypt_file (py_bytes "abc") correcthorse = Http200 (blob, fp, chk) /\
    quantum_decrypt blob correcthorse fp chk = Ok (Some (py_bytes "abc")) /\
    decrypt_file blob correcthorse fp chk = Http400 "Encrypted data corrupted".
Proof.
  assert (H1 : 8 <= len correcthorse) by (vm_compute; discriminate).
  assert (H2 : 1 <= len (py_bytes "abc") <= 3) by (split; vm_compute; discriminate).
  split; [exact H1|]. split; [exact H2|].
  apply (X15_short_file_not_downloadable (py_bytes "abc") correcthorse H1 H2).
Defined.

Lemma quantum_decrypt_total blob password fp chk :
  4 <= len blob -> exists r, quantum_decrypt blob password fp chk = Ok r.
Proof.
  intros Hlen.
  destruct (fingerprint_total password) as (ks32 & Ef & _).
  destruct (quantum_hash_total blob password) as (h & Eh).
  destruct (list_eq_dec N.eq_dec (hex ks32) fp) as [Efp|Nfp].
  2:{ exists None. apply quantum_decrypt_mismatch. left. congruence. }
  destruct (list_eq_dec N.eq_dec h chk) as [Echk|Nchk].
  2:{ exists None. apply quantum_decrypt_mismatch. right. congruence. }
  subst fp chk.
  assert (Hu : exists N, unpack_be32 (firstn 4 blob) = Ok N).
  { unfold len in Hlen.
    destruct blob as [|b3 [|b2 [|b1 [|b0 t]]]]; cbn [List.length] in Hlen; try lia.
    cbn [firstn unpack_be32]. eexists. reflexivity. }
  destruct Hu as (N & Hu).
  destruct (quantum_decrypt_checked _ _ _ _ _ Ef Eh Hu) as (ks & _ & _ & Ed).
  rewrite Ed. destruct (len _ =? N); eexists; reflexivity.
Qed.

(** X16. No exception of the engine escapes the decrypt endpoint: for
    every stored blob, fingerprint and checksum and every password,
    [decrypt_file] answers 200 or 400, never 500; and it answers 200 only
    with the bytes [quantum_decrypt] returned, for a password of at least
    8 characters, a blob of at least 8 bytes, and a fingerprint and
    checksum that both match. *)
Theorem X16_decrypt_file_outcomes blob password fp chk :
  (forall e, decrypt_file blob password fp chk <> Http500 e) /\
  (forall data,
     decrypt_file blob password fp chk = Http200 data ->
     8 <= len password /\ 8 <= len blob /\
     quantum_decrypt blob password fp chk = Ok (Some data) /\
     generate_entropy_fingerprint password = Ok fp /\
     quantum_hash blob password = Ok chk).
Proof.
  unfold decrypt_file.
  destruct ((len password =? 0) || (len password <? 8)) eqn:Ep.
  { split; intros; discriminate. }
  destruct ((len blob =? 0) || (len blob <? 8)) eqn:Eb.
  { split; intros; discriminate. }
  apply orb_false_iff in Ep, Eb. destruct Ep as [_ Ep]. destruct Eb as [_ Eb].
  apply Z.ltb_ge in Ep, Eb.
  destruct (quantum_decrypt_total blob password fp chk) as (r & Er); [lia|].
  rewrite Er. destruct r as [d|]; (split; [intros; discriminate|]).
  - intros data H. injection H as <-.
    destruct (quantum_decrypt_some_inv _ _ _ _ _ Er) as (Ef & Eh & _).
    auto.
  - intros data H. discriminate H.
Qed.

Lemma quantum_encrypt_too_long data password :
  0xFFFFFFFF < len data -> quantum_encrypt data password = Raise StructError.
Proof.
  intros Hlen. unfold quantum_encrypt.
  destruct (fingerprint_total password) as (ks & -> & _). unfold bind at 1.
  unfold pack_be32.
  replace (len data <=? 0xFFFFFFFF) with false by (symmetry; apply Z.leb_gt; lia).
  rewrite andb_false_r. reflexivity.
Qed.

(** X17. The encrypt endpoint calls the engine only on a password of at
    least 8 characters and a non-empty file: it answers 200 only with what
    [quantum_encrypt] returned for such inputs, and the only exception
    that can escape it (status 500) is [struct.error], for a file longer
    than [2^32 - 1] bytes. *)
Theorem X17_encrypt_file_outcomes data password :
  (forall r,
     encrypt_file data password = Http200 r ->
     8 <= len password /\ 1 <= len data <= 0xFFFFFFFF /\
     quantum_encrypt data password = Ok r) /\
  (forall e,
     encrypt_file data password = Http500 e ->
     e = StructError /\ 0xFFFFFFFF < len data).
Proof.
  unfold encrypt_file. pose proof (len_nonneg data) as Hd.
  destruct ((len password =? 0) || (len password <? 8)) eqn:Ep.
  { split; intros; discriminate. }
  destruct (len data =? 0) eqn:E0.
  { split; intros; discriminate. }
  apply orb_false_iff in Ep. destruct Ep as [_ Ep].
  apply Z.ltb_ge in Ep. apply Z.eqb_neq in E0.
  destruct (Z_le_gt_dec (len data) 0xFFFFFFFF) as [Hle|Hgt].
  - destruct (quantum_encrypt_total data password Hle) as (blob & fp & chk & H).
    rewrite H. split.
    + intros r Hr. injection Hr as <-. repeat split; auto; lia.
    + intros e He. discriminate He.
  - rewrite (quantum_encrypt_too_long data password) by lia. split.
    + intros r Hr. discriminate Hr.
    + intros e He. injection He as <-. split; [reflexivity | lia].
Qed.
